(** * icbmbot: game-session orchestration, shallow embedding and properties

    The development follows the Python sources:
    - [compute_time_management.py]  ([TimeManagement])
    - [trash_bot.py]                (the remaining modules)

    Part I holds the embedding of the code, one module per component.
    Part II holds the properties, one module of facts per component.

    Conventions.  Python [float] values are idealised as rationals [Q],
    their arithmetic taken as exact; where a test of the code is decided
    by a rounded sum (the safety bank of the time manager), the stored
    value is a parameter of its own.  Python [int] values are [Z]; [str]
    is [string]; [None]-able values are [option]; a raised exception is a
    constructor of the result type.  The draw of [random.uniform] is an
    explicit argument. *)

From Stdlib Require Import QArith Qminmax Qround Lqa ZArith Lia Bool Ascii String.
From stdpp Require Import gmap strings list fin_maps sorting.

#[local] Set Warnings "-clear-no-such-hyp".

(* ===================================================================== *)
(** * Part I.  The embedding                                              *)
(* ===================================================================== *)

(** ** compute_time_management.py *)
Module TimeManagement.
Local Open Scope Q_scope.

(** Python's [max(a, b)]: [b] when [b > a], otherwise [a]. *)
Definition fmax (a b : Q) : Q := if Qle_bool b a then a else b.

(** Python's [min(a, b)]: [b] when [b < a], otherwise [a]. *)
Definition fmin (a b : Q) : Q := if Qle_bool a b then a else b.

(** [safe_bank = 3.0 + 1.0 * I] *)
Definition safe_bank (I : Q) : Q := 3.0 + 1.0 * I.

(** Estimated remaining moves, by base time class. *)
Definition estimate_RM (base_minutes : Z) : Q :=
  if (15 <=? base_minutes)%Z then 35
  else if (5 <=? base_minutes)%Z then 25
  else 15.

(** Phase scaling of the nominal budget. *)
Definition phase_scale (P : Z) : Q :=
  if (P <? 20)%Z then 1.5
  else if (P <? 60)%Z then 1.2
  else 1.0.

(** Lines 36-65 of [compute_movetime]: the budget of the normal branch
    after the practical clamps and before the jitter. *)
Definition clamped_budget
    (T I : Q) (P : Z) (in_check forced : bool) (base_minutes : Z) : Q :=
  let RM := estimate_RM base_minutes in
  let pool := (T - safe_bank I) + 0.5 * I * RM in
  let budget := pool / RM in
  let budget := budget * phase_scale P in
  let budget := if in_check then budget * 1.3 else budget in
  let budget := if forced then budget * 0.7 else budget in
  let budget := fmin budget (T - safe_bank I) in
  let budget := fmin budget 60.0 in
  let budget := fmax budget 2.0 in
  budget.

(** [compute_movetime]; [jitter] is the value drawn by
    [random.uniform(0.85, 1.15)]. *)
Definition compute_movetime
    (remaining_time_s increment_s : Q) (ply : Z)
    (in_check forced : bool) (base_minutes : Z) (jitter : Q) : Q :=
  let T := fmax 0.0 remaining_time_s in
  let I := fmax 0.0 increment_s in
  let P := Z.max 0 ply in
  if Qle_bool T (safe_bank I) then
    fmax 0.2 (T * 0.25)
  else
    clamped_budget T I P in_check forced base_minutes * jitter.

(** The code evaluates [3.0 + 1.0 * I] once, in floating point, and reads
    the stored value [safe_bank] in the sudden-death test, in the pool and
    in the bank clamp; the stored value is the double nearest to the sum,
    not always the sum.  [clamped_budget_at bank] and
    [compute_movetime_at bank] are the same lines with the stored value
    [bank] in place of the exact [safe_bank I]: what holds of them for
    every [bank] holds whatever the rounding of the sum. *)
Definition clamped_budget_at
    (bank T I : Q) (P : Z) (in_check forced : bool) (base_minutes : Z) : Q :=
  let RM := estimate_RM base_minutes in
  let pool := (T - bank) + 0.5 * I * RM in
  let budget := pool / RM in
  let budget := budget * phase_scale P in
  let budget := if in_check then budget * 1.3 else budget in
  let budget := if forced then budget * 0.7 else budget in
  let budget := fmin budget (T - bank) in
  let budget := fmin budget 60.0 in
  let budget := fmax budget 2.0 in
  budget.

Definition compute_movetime_at (bank : Q)
    (remaining_time_s increment_s : Q) (ply : Z)
    (in_check forced : bool) (base_minutes : Z) (jitter : Q) : Q :=
  let T := fmax 0.0 remaining_time_s in
  let I := fmax 0.0 increment_s in
  let P := Z.max 0 ply in
  if Qle_bool T bank then
    fmax 0.2 (T * 0.25)
  else
    clamped_budget_at bank T I P in_check forced base_minutes * jitter.

End TimeManagement.

(** ** trash_bot.py: configuration (environment variables, with defaults) *)
Module Config.

Record t := {
  MAX_NET_RETRIES : Z;
  RECONNECT_DELAY_SEC : Q;
  MAX_ACTIVE_GAMES : Z;
  ALLOW_HUMANS : bool;
  ACCEPT_NONRATED : bool;
  ACCEPT_MIN_BASE_SECONDS : Z;
  ACCEPT_VARIANT_STANDARD : bool;
  MAX_OUTGOING_CHALLENGES : Z;
  RECHALLENGE_COOLDOWN : Z;
  PENDING_TTL : Z;
  CHALLENGE_CLOCK_SEC : Z;
  CHALLENGE_INC : Z;
  MIN_CHALLENGE_RATING : Z;
  RATING_CACHE_TTL : Z;
  RATE_MIN_INTERVAL : Q;
  MOVE_OVERHEAD_MS : Z;
  BOOK_PLIES : Z;
  MIN_MOVE_TIME : Q;
  TM_PHASE_CAP_OPEN_S : Q;
  TM_PHASE_CAP_MID_S : Q;
  TM_PHASE_CAP_END_S : Q;
  MY_BOT_ID : string
}.

(** The values used when no environment variable is set; [MY_BOT_ID] is
    read from the account at start-up. *)
Definition defaults (my_bot_id : string) : t := {|
  MAX_NET_RETRIES := 6;
  RECONNECT_DELAY_SEC := 5.0;
  MAX_ACTIVE_GAMES := 1;
  ALLOW_HUMANS := true;
  ACCEPT_NONRATED := true;
  ACCEPT_MIN_BASE_SECONDS := 300;
  ACCEPT_VARIANT_STANDARD := true;
  MAX_OUTGOING_CHALLENGES := 1;
  RECHALLENGE_COOLDOWN := 900;
  PENDING_TTL := 30;
  CHALLENGE_CLOCK_SEC := 600;
  CHALLENGE_INC := 0;
  MIN_CHALLENGE_RATING := 3000;
  RATING_CACHE_TTL := 600;
  RATE_MIN_INTERVAL := 60.0;
  MOVE_OVERHEAD_MS := 60;
  BOOK_PLIES := 82323232323232323;
  MIN_MOVE_TIME := 0.40;
  TM_PHASE_CAP_OPEN_S := 30;
  TM_PHASE_CAP_MID_S := 45;
  TM_PHASE_CAP_END_S := 60;
  MY_BOT_ID := my_bot_id
|}.

End Config.

(** ** Python string helpers *)
Module PyStr.

(** [str.lower()] on the ASCII range. *)
Definition lower_ascii (c : ascii) : ascii :=
  let n := nat_of_ascii c in
  if (65 <=? n)%nat && (n <=? 90)%nat then ascii_of_nat (n + 32) else c.

Fixpoint lower (s : string) : string :=
  match s with
  | EmptyString => EmptyString
  | String c s' => String (lower_ascii c) (lower s')
  end.

End PyStr.

(** ** trash_bot.py: shared registries and the outgoing-challenge path *)
Module Registry.
Import Config.
Local Open Scope Q_scope.

(** The process-wide mutable state.  Every accessor below runs with
    [lock] held ([with_lock] or an explicit [with lock:]), so each is one
    atomic transition of this record.  [clock] is the wall clock read by
    [time.time()] and advanced by [time.sleep]; [created_challenges] is
    the list of challenges the platform received from
    [client.challenges.create]. *)
Record state := {
  clock : Q;
  active_games : gset string;
  pending_challenges : gmap string Q;
  last_challenged : gmap string Q;
  rating_cache : gmap (string * string) (Q * option Z);
  next_http_ok_at : Q;
  created_challenges : list string
}.

Definition initial : state := {|
  clock := 0;
  active_games := ∅;
  pending_challenges := ∅;
  last_challenged := ∅;
  rating_cache := ∅;
  next_http_ok_at := 0.0;
  created_challenges := []
|}.

Definition set_active (f : gset string → gset string) (st : state) : state :=
  {| clock := clock st; active_games := f (active_games st);
     pending_challenges := pending_challenges st;
     last_challenged := last_challenged st;
     rating_cache := rating_cache st;
     next_http_ok_at := next_http_ok_at st;
     created_challenges := created_challenges st |}.

Definition set_pending (f : gmap string Q → gmap string Q) (st : state) : state :=
  {| clock := clock st; active_games := active_games st;
     pending_challenges := f (pending_challenges st);
     last_challenged := last_challenged st;
     rating_cache := rating_cache st;
     next_http_ok_at := next_http_ok_at st;
     created_challenges := created_challenges st |}.

Definition set_last (f : gmap string Q → gmap string Q) (st : state) : state :=
  {| clock := clock st; active_games := active_games st;
     pending_challenges := pending_challenges st;
     last_challenged := f (last_challenged st);
     rating_cache := rating_cache st;
     next_http_ok_at := next_http_ok_at st;
     created_challenges := created_challenges st |}.

Definition set_rating_cache
    (f : gmap (string * string) (Q * option Z) → gmap (string * string) (Q * option Z))
    (st : state) : state :=
  {| clock := clock st; active_games := active_games st;
     pending_challenges := pending_challenges st;
     last_challenged := last_challenged st;
     rating_cache := f (rating_cache st);
     next_http_ok_at := next_http_ok_at st;
     created_challenges := created_challenges st |}.

(** [time.sleep(d)] *)
Definition sleep (d : Q) (st : state) : state :=
  {| clock := clock st + d; active_games := active_games st;
     pending_challenges := pending_challenges st;
     last_challenged := last_challenged st;
     rating_cache := rating_cache st;
     next_http_ok_at := next_http_ok_at st;
     created_challenges := created_challenges st |}.

(** [claim_game]: mark [gid] as active if not already; [true] if claimed. *)
Definition claim_game (gid : string) (st : state) : bool * state :=
  if decide (gid ∈ active_games st) then (false, st)
  else (true, set_active (λ s, {[gid]} ∪ s) st).

(** [remove_active]: [active_games.discard(gid)] *)
Definition remove_active (gid : string) (st : state) : state :=
  set_active (λ s, s ∖ {[gid]}) st.

(** [add_pending] *)
Definition add_pending (u : string) (st : state) : state :=
  set_pending (λ m, <[PyStr.lower u := clock st]> m) st.

(** [remove_pending] *)
Definition remove_pending (u : string) (st : state) : state :=
  set_pending (λ m, delete (PyStr.lower u) m) st.

(** [mark_challenged] *)
Definition mark_challenged (u : string) (st : state) : state :=
  set_last (λ m, <[PyStr.lower u := clock st]> m) st.

(** [sweep_stale_pendings]: drop the entries at least [PENDING_TTL] old. *)
Definition sweep_stale_pendings (cfg : Config.t) (st : state) : state :=
  let now := clock st in
  set_pending
    (filter (λ kv, negb (Qle_bool (inject_Z (PENDING_TTL cfg)) (now - kv.2)) = true))
    st.

(** [perf_for_limit] *)
Definition perf_for_limit (limit_sec inc_sec : Z) : string :=
  if (limit_sec <? 180)%Z then "bullet"
  else if (limit_sec <? 480)%Z then "blitz"
  else if (limit_sec <=? 1500)%Z then "rapid"
  else "classical".

(** What the platform answers to the public-data request for a user:
    [None] when the request raises, otherwise the rating recorded under
    each performance key. *)
Definition platform := string → option (string → option Z).

(** The fetch inside [get_rating_cached]: the requested perf first, then
    the first of rapid, blitz, classical, bullet that carries a rating. *)
Definition fetch_rating (srv : platform) (username perf_key : string) : option Z :=
  match srv username with
  | None => None
  | Some perfs =>
      match perfs perf_key with
      | Some r => Some r
      | None =>
          match perfs "rapid", perfs "blitz", perfs "classical", perfs "bullet" with
          | Some r, _, _, _ => Some r
          | None, Some r, _, _ => Some r
          | None, None, Some r, _ => Some r
          | None, None, None, r => r
          end
      end
  end.

(** [get_rating_cached] *)
Definition get_rating_cached (cfg : Config.t) (srv : platform)
    (username perf_key : string) (st : state) : option Z * state :=
  let u := PyStr.lower username in
  let now := clock st in
  let key := (u, perf_key) in
  let fresh :=
    match rating_cache st !! key with
    | Some hit =>
        if negb (Qle_bool (inject_Z (RATING_CACHE_TTL cfg)) (now - hit.1))
        then Some hit.2 else None
    | None => None
    end in
  match fresh with
  | Some r => (r, st)
  | None =>
      let rating := fetch_rating srv username perf_key in
      (rating, set_rating_cache (λ m, <[key := (now, rating)]> m) st)
  end.

(** [should_challenge] *)
Definition should_challenge (cfg : Config.t) (srv : platform)
    (username : string) (st : state) : bool * state :=
  let u := PyStr.lower username in
  let now := clock st in
  if (MAX_OUTGOING_CHALLENGES cfg <=? Z.of_nat (size (pending_challenges st)))%Z
  then (false, st)
  else if decide (is_Some (pending_challenges st !! u)) then (false, st)
  else
    let cooling :=
      match last_challenged st !! u with
      | Some last =>
          negb (Qle_bool (inject_Z (RECHALLENGE_COOLDOWN cfg)) (now - last))
      | None => false
      end in
    if cooling then (false, st)
    else
      let perf_key := perf_for_limit (CHALLENGE_CLOCK_SEC cfg) (CHALLENGE_INC cfg) in
      let '(rating, st') := get_rating_cached cfg srv username perf_key st in
      match rating with
      | None => (false, st')
      | Some r => if (r <? MIN_CHALLENGE_RATING cfg)%Z then (false, st') else (true, st')
      end.

(** [http_throttle]: wait until the next permitted POST, then book the
    following slot. *)
Definition http_throttle (cfg : Config.t) (st : state) : state :=
  let now := clock st in
  let st1 :=
    if negb (Qle_bool (next_http_ok_at st) now)
    then sleep (next_http_ok_at st - now) st else st in
  {| clock := clock st1; active_games := active_games st1;
     pending_challenges := pending_challenges st1;
     last_challenged := last_challenged st1;
     rating_cache := rating_cache st1;
     next_http_ok_at := clock st1 + RATE_MIN_INTERVAL cfg;
     created_challenges := created_challenges st1 |}.

(** How [_retry_call("challenge_create", ...)] ends: the platform created
    the challenge after [slept] seconds of back-off, or an exception came
    out after [slept] seconds (a 404, any other error). *)
Inductive create_outcome :=
| Created (slept : Q)
| CreateFailed (slept : Q).

(** [challenge_bot]: throttle, ask the platform to create the challenge,
    log; every exception is caught and logged. *)
Definition challenge_bot (cfg : Config.t) (outcome : create_outcome)
    (username : string) (st : state) : state :=
  let st1 := http_throttle cfg st in
  match outcome with
  | Created d =>
      let st2 := sleep d st1 in
      {| clock := clock st2; active_games := active_games st2;
         pending_challenges := pending_challenges st2;
         last_challenged := last_challenged st2;
         rating_cache := rating_cache st2;
         next_http_ok_at := next_http_ok_at st2;
         created_challenges := created_challenges st2 ++ [username] |}
  | CreateFailed d => sleep d st1
  end.

(** One candidate of the walk in [challenger_loop]:
    [if not should_challenge(bot_name): continue],
    [challenge_bot(bot_name)], [time.sleep(20)]. *)
Definition dispatch_candidate (cfg : Config.t) (srv : platform)
    (outcome : create_outcome) (bot_name : string) (st : state) : state :=
  let '(ok, st1) := should_challenge cfg srv bot_name st in
  if ok then sleep 20 (challenge_bot cfg outcome bot_name st1) else st1.

(** A schedule of lock-protected accesses to the active-game registry, in
    the order in which the threads obtain [lock]. *)
Inductive access :=
| Claim (gid : string)
| Release (gid : string).

(** Runs a schedule; each claim is recorded with the value it returned. *)
Fixpoint run (sched : list access) (st : state) : list (string * bool) * state :=
  match sched with
  | [] => ([], st)
  | Claim gid :: rest =>
      let '(r, st1) := claim_game gid st in
      let '(log, st2) := run rest st1 in
      ((gid, r) :: log, st2)
  | Release gid :: rest => run rest (remove_active gid st)
  end.

End Registry.

Module RegistryLog.
Import Registry.

(** How many claims of [gid] a run granted, and how many it attempted. *)
Definition granted (gid : string) (log : list (string * bool)) : nat :=
  length (filter (λ e, e = (gid, true)) log).

Definition refused (gid : string) (log : list (string * bool)) : nat :=
  length (filter (λ e, e = (gid, false)) log).

Fixpoint attempts (gid : string) (sched : list access) : nat :=
  match sched with
  | [] => 0
  | Claim g :: rest => (if decide (g = gid) then 1 else 0) + attempts gid rest
  | Release _ :: rest => attempts gid rest
  end.

(** No [remove_active(gid)] occurs in the schedule. *)
Fixpoint never_released (gid : string) (sched : list access) : Prop :=
  match sched with
  | [] => True
  | Claim _ :: rest => never_released gid rest
  | Release g :: rest => g ≠ gid ∧ never_released gid rest
  end.

End RegistryLog.

(** A platform on which every user has a rapid rating of 3200. *)
Module DispatchScenario.
Import Registry.

Definition strong_rivals : platform :=
  λ _, Some (λ perf, if String.eqb perf "rapid" then Some 3200%Z else None).

Definition cfg : Config.t := Config.defaults "icbmbot".

(** The state after the dispatch loop has handled candidate ["Rival"] once,
    starting from the initial state. *)
Definition after_first_challenge : state :=
  dispatch_candidate cfg strong_rivals (Created 0) "Rival" initial.

End DispatchScenario.

(** ** trash_bot.py: the network resilience layer ([_retry_call]) *)
Module Retry.
Local Open Scope Z_scope.

(** [needle in s] for Python strings. *)
Fixpoint contains (needle s : string) : bool :=
  String.prefix needle s ||
  match s with
  | EmptyString => false
  | String _ s' => contains needle s'
  end.

(** What the wrapper inspects of an exception raised by the wrapped call. *)
Record error := {
  is_api_error : bool;      (* isinstance(e, (ApiError, ResponseError)) *)
  is_connection_error : bool;
      (* isinstance(e, (ConnectionError, ReadTimeout, ChunkedEncodingError)) *)
  message : string;         (* str(e) *)
  retry_after : option Z
      (* int(e.response.headers["Retry-After"]), when the exception carries
         a response, the header is present and [int] accepts it *)
}.

(** [_is_transient_net_err] *)
Definition _is_transient_net_err (e : error) : bool :=
  let s := PyStr.lower (message e) in
  is_connection_error e
  || contains "remote end closed connection" s
  || contains "connection aborted" s
  || contains "protocolerror" s
  || contains "temporarily unavailable" s
  || contains "gateway timeout" s
  || contains "bad gateway" s
  || contains "connection reset" s
  || contains "api timeout" s
  || contains "cancellederror" s
  || contains "timeouterror" s.

(** The 429 test of the first handler. *)
Definition is_rate_limit (e : error) : bool :=
  is_api_error e && contains "429" (message e).

Section RetryCall.
Context {V : Type}.
Variable cfg : Config.t.

(** One invocation of the wrapped operation. *)
Inductive outcome :=
| Returns (v : V)
| Raises (e : error).

(** A pause taken between two attempts. *)
Inductive nap :=
| RateLimitNap (seconds : Z)
| TransientNap (seconds : Q).

(** How [_retry_call] ends. *)
Inductive result :=
| Returned (v : V)
| Propagated (e : error)        (* the bare [raise] *)
| RetriesExceeded               (* [RuntimeError("... exceeded retries ...")] *)
| SleepRejected                 (* [time.sleep] refuses a negative length *)
| StillRetrying.                (* the loop has not ended within the fuel *)

(** The [while True] loop.  [fn k] is what the [k]-th invocation of the
    wrapped operation does; [fuel] bounds the number of invocations
    observed. *)
Fixpoint retry_loop (fuel : nat) (fn : nat → outcome)
    (k : nat) (attempt backoff_429 : Z) (naps : list nap)
    : result * nat * list nap :=
  match fuel with
  | O => (StillRetrying, k, naps)
  | S fuel' =>
      match fn k with
      | Returns v => (Returned v, S k, naps)
      | Raises e =>
          if is_api_error e then
            if contains "429" (message e) then
              let retry_after :=
                match retry_after e with
                | Some n => n
                | None => backoff_429
                end in
              if retry_after <? 0 then (SleepRejected, S k, naps)
              else
                retry_loop fuel' fn (S k) attempt
                  (Z.min (backoff_429 * 2) 1800)
                  (naps ++ [RateLimitNap retry_after])
            else if _is_transient_net_err e then
              let attempt := attempt + 1 in
              if Config.MAX_NET_RETRIES cfg <? attempt
              then (RetriesExceeded, S k, naps)
              else if negb (Qle_bool 0 (Config.RECONNECT_DELAY_SEC cfg))
              then (SleepRejected, S k, naps)
              else
                retry_loop fuel' fn (S k) attempt backoff_429
                  (naps ++ [TransientNap (Config.RECONNECT_DELAY_SEC cfg)])
            else (Propagated e, S k, naps)
          else
            if _is_transient_net_err e then
              let attempt := attempt + 1 in
              if Config.MAX_NET_RETRIES cfg <? attempt
              then (RetriesExceeded, S k, naps)
              else if negb (Qle_bool 0 (Config.RECONNECT_DELAY_SEC cfg))
              then (SleepRejected, S k, naps)
              else
                retry_loop fuel' fn (S k) attempt backoff_429
                  (naps ++ [TransientNap (Config.RECONNECT_DELAY_SEC cfg)])
            else (Propagated e, S k, naps)
      end
  end.

(** [_retry_call]: [attempt = 0], [backoff_429 = 60].  The result comes
    with the number of invocations made and the pauses taken. *)
Definition _retry_call (fuel : nat) (fn : nat → outcome)
    : result * nat * list nap :=
  retry_loop fuel fn 0%nat 0 60 [].





End RetryCall.

Arguments outcome : clear implicits.
Arguments result : clear implicits.

End Retry.

(** Errors used in the scenarios of the resilience layer. *)
Module RetryScenario.
Import Retry.

Definition too_many_requests : error :=
  {| is_api_error := true; is_connection_error := false;
     message := "HTTP 429: Too Many Requests"; retry_after := None |}.

Definition connection_reset : error :=
  {| is_api_error := false; is_connection_error := false;
     message := "Connection reset by peer"; retry_after := None |}.


End RetryScenario.

(** ** trash_bot.py: position fingerprints ([normalize_fen]) *)
Module Fen.

(** [str.isspace] on a character, for code points below 256. *)
Definition is_space (c : ascii) : bool :=
  let n := nat_of_ascii c in
  ((9 <=? n)%nat && (n <=? 13)%nat)
  || ((28 <=? n)%nat && (n <=? 32)%nat)
  || (n =? 133)%nat || (n =? 160)%nat.

Definition is_empty (s : string) : bool :=
  match s with EmptyString => true | String _ _ => false end.

(** [str.lstrip()] and [str.rstrip()], hence [str.strip()]. *)
Fixpoint lstrip (s : string) : string :=
  match s with
  | EmptyString => EmptyString
  | String c s' => if is_space c then lstrip s' else s
  end.

Fixpoint rstrip (s : string) : string :=
  match s with
  | EmptyString => EmptyString
  | String c s' =>
      let r := rstrip s' in
      if is_space c && is_empty r then EmptyString else String c r
  end.

Definition strip (s : string) : string := lstrip (rstrip s).

(** [str.split()] without argument: the maximal runs of non-space
    characters; [acc] is the run being read. *)
Fixpoint split_acc (acc : string) (s : string) : list string :=
  match s with
  | EmptyString => if is_empty acc then [] else [acc]
  | String c s' =>
      if is_space c then
        if is_empty acc then split_acc EmptyString s'
        else acc :: split_acc EmptyString s'
      else split_acc (acc +:+ String c EmptyString) s'
  end.

Definition split (s : string) : list string := split_acc EmptyString s.

(** [sep.join(parts)] *)
Fixpoint join (sep : string) (parts : list string) : string :=
  match parts with
  | [] => EmptyString
  | [x] => x
  | x :: rest => x +:+ sep +:+ join sep rest
  end.

(** [re.fullmatch(r"[a-h][36]", ep)] *)
Definition is_ep_square (ep : string) : bool :=
  match ep with
  | String f (String r EmptyString) =>
      let n := nat_of_ascii f in
      ((97 <=? n)%nat && (n <=? 104)%nat)
      && (Ascii.eqb r "3" || Ascii.eqb r "6")
  | _ => false
  end.

(** The en-passant sanitising step. *)
Definition sanitize_ep (ep : string) : string :=
  if negb (String.eqb ep "-") && negb (is_ep_square ep) then "-" else ep.

(** [normalize_fen]; [None] stands for the [ValueError] raised on fewer
    than four fields. *)
Definition normalize_fen (fen : string) : option string :=
  let parts := split (strip fen) in
  match parts with
  | board :: turn :: castling :: ep :: _ =>
      Some (join " " [board; turn; castling; sanitize_ep ep])
  | _ => None
  end.

(** A FEN field: a non-empty run of non-space characters. *)
Fixpoint no_space (s : string) : bool :=
  match s with
  | EmptyString => true
  | String c s' => negb (is_space c) && no_space s'
  end.

Definition field (s : string) : Prop := is_empty s = false ∧ no_space s = true.

End Fen.

(** ** trash_bot.py: the multi-book chooser ([_find_book_move]) *)
Module Book.
Local Open Scope Z_scope.

(** A polyglot entry for the current position: [e.move.uci()] and
    [int(getattr(e, "weight", 0))]. *)
Record entry := Entry { move : string; weight : Z }.

(** A slot of the reader list: no reader ([if not rdr: continue]), or a
    reader whose [find_all(board)] returns entries or raises ([None]). *)
Inductive reader :=
| NoReader
| Reader (find_all : option (list entry)).

(** A candidate kept for a move: weight, index of the book, its label. *)
Definition candidate : Type := Z * nat * string.

(** [list_entries]: the books with at least one entry, with their position
    in the reader list. *)
Fixpoint list_entries_from (idx : nat) (readers : list (reader * string))
    : list (nat * string * list entry) :=
  match readers with
  | [] => []
  | (NoReader, _) :: rest => list_entries_from (S idx) rest
  | (Reader r, label) :: rest =>
      match default [] r with
      | [] => list_entries_from (S idx) rest
      | entries => (idx, label, entries) :: list_entries_from (S idx) rest
      end
  end.

Definition list_entries (readers : list (reader * string)) :=
  list_entries_from 0 readers.

(** The body of the inner loop of the best-move policy: keep the heaviest;
    tie-break by earlier book. *)
Definition consider (idx : nat) (label : string)
    (candidates : gmap string candidate) (e : entry) : gmap string candidate :=
  let w := weight e in
  let u := move e in
  match candidates !! u with
  | None => <[u := (w, idx, label)]> candidates
  | Some (cur_w, cur_idx, _) =>
      if (cur_w <? w) || ((w =? cur_w) && (idx <? cur_idx)%nat)
      then <[u := (w, idx, label)]> candidates
      else candidates
  end.

(** The loop body applied to one offer. *)
Definition step (candidates : gmap string candidate) (o : nat * string * entry) :=
  let '(idx, label, e) := o in consider idx label candidates e.

(** The union of all candidate moves. *)
Definition collect (readers : list (reader * string)) : gmap string candidate :=
  foldl (λ candidates '(idx, label, entries),
           foldl (consider idx label) candidates entries)
        ∅ (list_entries readers).

(** The sort key [(-kv[1][0], kv[1][1], kv[0])] and the order of the
    tuples. *)
Definition key_leb (a b : string * candidate) : bool :=
  let '(ua, (wa, ia, _)) := a in
  let '(ub, (wb, ib, _)) := b in
  (- wa <? - wb)
  || ((- wa =? - wb) && ((ia <? ib)%nat || ((ia =? ib)%nat && String.leb ua ub))).

Definition key_le (a b : string * candidate) : Prop := key_leb a b = true.

#[global] Instance key_le_dec a b : Decision (key_le a b) :=
  decide (key_leb a b = true).

(** The best-move policy: [sorted(candidates.items(), key=...)[0]].  The
    keys are pairwise distinct (they end with the dictionary key), so the
    sorted list does not depend on the order of [items()]. *)
Definition best_move (readers : list (reader * string)) : option (string * string) :=
  match merge_sort key_le (map_to_list (collect readers)) with
  | [] => None
  | (best_uci, (_, _, best_label)) :: _ => Some (best_uci, best_label)
  end.

(** [entries.sort(key=weight, reverse=True); entries[0]]: the sort is
    stable, so this is the first entry of greatest weight. *)
Fixpoint heaviest (first : entry) (rest : list entry) : entry :=
  match rest with
  | [] => first
  | e :: rest' => heaviest (if weight first <? weight e then e else first) rest'
  end.

(** The first-match policy. *)
Definition first_match (readers : list (reader * string)) : option (string * string) :=
  match list_entries readers with
  | (_, label, e :: entries) :: _ => Some (move (heaviest e entries), label)
  | _ => None
  end.

Inductive policy := BestMove | FirstMatch.

(** [_find_book_move], given the reader list resolved for the side to
    move and the policy in force. *)
Definition _find_book_move (p : policy) (readers : list (reader * string))
    : option (string * string) :=
  match readers with
  | [] => None
  | _ =>
      match p with
      | FirstMatch => first_match readers
      | BestMove => best_move readers
      end
  end.

(** Book number [idx], labelled [label], lists move [u] at weight [w]. *)
Definition offered (readers : list (reader * string))
    (idx : nat) (label : string) (u : string) (w : Z) : Prop :=
  ∃ entries, readers !! idx = Some (Reader (Some entries), label) ∧
             Entry u w ∈ entries.

(** The offers in the order in which the two loops visit them. *)
Definition offers (books : list (nat * string * list entry))
    : list (nat * string * entry) :=
  mjoin ((λ '(idx, label, entries), (λ e, (idx, label, e)) <$> entries) <$> books).

End Book.

(** ** trash_bot.py: inbound challenge policy ([acceptable_challenge]) *)
Module Admission.
Import Config.
Local Open Scope Z_scope.

(** The fields of a challenge event that the policy reads; a field that
    is missing, [null] or an empty object is [None]. *)
Record challenge := {
  variant_key : option string;       (* ch["variant"]["key"] *)
  time_limit : option Z;             (* ch["timeControl"]["limit"], seconds *)
  rated : bool;                      (* truth value of ch.get("rated", False) *)
  challenger_title : option string;  (* ch["challenger"]["title"] *)
  challenger_id : option string;     (* ch["challenger"]["id"] *)
  dest_id : option string;           (* ch["destUser"]["id"] *)
  status : option string             (* ch["status"] *)
}.

Definition option_string_eqb (a : option string) (b : string) : bool :=
  match a with
  | Some s => String.eqb s b
  | None => false
  end.

(** [x or ""] *)
Definition or_empty (a : option string) : string := default EmptyString a.

(** [acceptable_challenge] *)
Definition acceptable_challenge (cfg : Config.t) (ch : challenge) : bool :=
  if ACCEPT_VARIANT_STANDARD cfg && negb (option_string_eqb (variant_key ch) "standard")
  then false
  else
    let limit := default 0 (time_limit ch) in
    let rated := rated ch in
    if negb (ACCEPT_NONRATED cfg) && negb rated then false
    else if limit <? ACCEPT_MIN_BASE_SECONDS cfg then false
    else
      let is_bot := option_string_eqb (challenger_title ch) "BOT" in
      if negb (ALLOW_HUMANS cfg) && negb is_bot then false
      else
        let challenger_id := PyStr.lower (or_empty (challenger_id ch)) in
        let dest_id := PyStr.lower (or_empty (dest_id ch)) in
        if String.eqb challenger_id (MY_BOT_ID cfg)
           || negb (String.eqb dest_id (MY_BOT_ID cfg))
        then false
        else
          let status := PyStr.lower (or_empty (status ch)) in
          if negb (String.eqb status "")
             && negb (String.eqb status "created" || String.eqb status "pending")
          then false
          else true.

(** The status as the event listener reads it: a challenge that reports
    none is a freshly created one ([ch.get("status") or "created"]). *)
Definition reported_status (ch : challenge) : string :=
  match PyStr.lower (or_empty (status ch)) with
  | EmptyString => "created"
  | s => s
  end.

End Admission.

(** Challenges used in the admission scenarios. *)
Module AdmissionScenario.
Import Admission.

Definition rapid_from_bot : challenge :=
  {| variant_key := Some "standard"; time_limit := Some 600%Z; rated := true;
     challenger_title := Some "BOT"; challenger_id := Some "Rival";
     dest_id := Some "IcbmBot"; status := Some "created" |}.

Definition bullet_from_bot : challenge :=
  {| variant_key := Some "standard"; time_limit := Some 60%Z; rated := true;
     challenger_title := Some "BOT"; challenger_id := Some "Rival";
     dest_id := Some "IcbmBot"; status := Some "created" |}.

End AdmissionScenario.

(** ** trash_bot.py: the move decision pipeline ([safe_make_move]) *)
Module Pipeline.
Import Config TimeManagement.
Local Open Scope Q_scope.

(** A move, by its UCI encoding. *)
Definition move : Type := string.

(** [not mv] for a move object: only the null move is falsy. *)
Definition is_null (mv : move) : bool := String.eqb mv "0000".

(** [mv] when it is truthy. *)
Definition truthy (mv : option move) : option move :=
  match mv with
  | Some m => if is_null m then None else Some m
  | None => None
  end.

(** [chess.engine.Limit] *)
Inductive limit :=
| Nodes (n : Z)
| Time (seconds : Q)
| Depth (d : Z).

(** What the pipeline does to its collaborators, in order. *)
Inductive action :=
| EnginePlay (l : limit)          (* engine.play(board, l) *)
| FirstLegalMove                  (* next(iter(board.legal_moves), None) *)
| Resign                          (* client.bots.resign_game *)
| SubmitMove (tag : string) (mv : move)   (* client.bots.make_move *)
| BoardPush (mv : move)           (* board.push(mv) *)
| BookLookup                      (* _find_book_move *)
| EngineAnalyse (l : limit)       (* engine.analyse(board, l), the table probe *)
| ComputeMovetime                 (* compute_movetime *)
| CacheProbe (l : limit).         (* probe_engine_with_cache *)

(** How a call through [_retry_call] ends for its caller. *)
Inductive call_result :=
| CallOk
| CallRejected (msg : string)     (* berserk ResponseError *)
| CallCrashed.                    (* any other exception *)

(** The collaborators, as seen during one call of [safe_make_move]. *)
Record world := {
  engine_play : limit → option (option move);
      (* [None]: raises; [Some r]: [res.move] *)
  legal_moves : list move;
  make_move : string → move → call_result;
  find_book_move : option (option (move * string));
      (* [None]: raises; [Some None]: the pair [(None, None)] *)
  table_probe : option (Z * list move);
      (* [None]: raises; otherwise [tbhits] and [pv] *)
  probe_engine_with_cache : limit → option (option move);
  report_move : option unit;
      (* composing the report of the move played from the entry that the
         cached search returned, lines 1484-1524; [None]: raises *)
  fullmove_number : Z;
  turn_white : bool;
  is_check : bool;
  stored_bank : Q → Q;
      (* the value the time manager stores for [3.0 + 1.0 * I] *)
  jitter : Q
}.

(** The phase caps, read from the environment on each call. *)
Definition _phase_cap_seconds_local (cfg : Config.t) (ply : Z) : Q :=
  if (ply <? 30)%Z then TM_PHASE_CAP_OPEN_S cfg
  else if (ply <? 70)%Z then TM_PHASE_CAP_MID_S cfg
  else TM_PHASE_CAP_END_S cfg.

(** [_micro_fallback_move]: [None] when an exception leaves the helper. *)
Definition _micro_fallback_move (w : world) (tag : string)
    : option bool * list action :=
  let '(mv, probed) :=
    match engine_play w (Nodes 2000) with
    | Some r => (r, [EnginePlay (Nodes 2000)])
    | None => (head (legal_moves w), [EnginePlay (Nodes 2000); FirstLegalMove])
    end in
  match truthy mv with
  | None => (Some false, probed ++ [Resign])
  | Some mv =>
      match make_move w tag mv with
      | CallOk => (Some true, probed ++ [SubmitMove tag mv; BoardPush mv])
      | CallRejected _ => (Some false, probed ++ [SubmitMove tag mv])
      | CallCrashed => (None, probed ++ [SubmitMove tag mv])
      end
  end.

(** Submitting a move found by one of the later steps: [None] when an
    exception other than a [ResponseError] comes out. *)
Definition submit (w : world) (tag : string) (mv : move)
    : option bool * list action :=
  match make_move w tag mv with
  | CallOk => (Some true, [SubmitMove tag mv; BoardPush mv])
  | CallRejected _ => (Some false, [SubmitMove tag mv])
  | CallCrashed => (None, [SubmitMove tag mv])
  end.

(** Python's [round] to an integer: half to even. *)
Definition py_round (q : Q) : Z :=
  let f := Qfloor q in
  let r := q - inject_Z f in
  if Qle_bool r 0.5 && negb (Qle_bool 0.5 r) then f
  else if Qle_bool 0.5 r && negb (Qle_bool r 0.5) then (f + 1)%Z
  else if Z.even f then f else (f + 1)%Z.

(** Step 4, lines 1436-1452: the limit of the normal search, with the
    call of the time manager when there is a clock. *)
Definition search_limit (cfg : Config.t) (w : world)
    (sec_left : option Q) (inc_s : Q) (cur_ply base_minutes : Z) (overhead : Q)
    : limit * list action :=
  match sec_left with
  | Some sec_left =>
      let movetime_s :=
        compute_movetime_at (stored_bank w (fmax 0.0 inc_s))
          sec_left inc_s cur_ply (is_check w)
          (Nat.leb (length (legal_moves w)) 2) base_minutes (jitter w) in
      let movetime_s := fmin movetime_s (_phase_cap_seconds_local cfg cur_ply) in
      let guard := 2.5 * overhead in
      let think :=
        fmax 0.02
          (fmin movetime_s
             (if Qeq_bool sec_left 0 then movetime_s else sec_left - guard)) in
      (Time think, [ComputeMovetime])
  | None => (Time (fmax 0.4 (MIN_MOVE_TIME cfg)), [])
  end.

(** The end of step 4, lines 1475-1525: the submission of the move found,
    the push, and the report of the move played.  The report reads the
    entry of the cached search ([cached]); after the fallback search the
    entry is the empty dictionary, of which the report is always composed.
    [None] when an exception other than a [ResponseError] comes out, be it
    after the push. *)
Definition submit_and_report (w : world) (cached : bool) (mv : move)
    : option bool * list action :=
  match make_move w "normal" mv with
  | CallOk =>
      (match (if cached then report_move w else Some tt) with
       | Some _ => Some true
       | None => None
       end,
       [SubmitMove "normal" mv; BoardPush mv])
  | CallRejected _ => (Some false, [SubmitMove "normal" mv])
  | CallCrashed => (None, [SubmitMove "normal" mv])
  end.

(** Step 4, the normal search. *)
Definition normal_search (cfg : Config.t) (w : world)
    (sec_left : option Q) (inc_s : Q) (cur_ply base_minutes : Z) (overhead : Q)
    : option bool * list action :=
  let '(lim, timed) :=
    search_limit cfg w sec_left inc_s cur_ply base_minutes overhead in
  let '(found, searched) :=
    match probe_engine_with_cache w lim with
    | Some r => (Some (r, true), [CacheProbe lim])
    | None =>
        match engine_play w lim with
        | Some r => (Some (r, false), [CacheProbe lim; EnginePlay lim])
        | None => (None, [CacheProbe lim; EnginePlay lim])
        end
    end in
  match found with
  | None => (Some false, timed ++ searched)
  | Some (r, cached) =>
      match truthy r with
      | None => (Some false, timed ++ searched ++ [Resign])
      | Some mv =>
          let '(ok, sent) := submit_and_report w cached mv in
          (ok, timed ++ searched ++ sent)
      end
  end.

(** Steps 2 to 4: book, table probe, normal search.  An exception of the
    book lookup leaves the function. *)
Definition after_panic (cfg : Config.t) (w : world)
    (sec_left : option Q) (inc_s : Q) (cur_ply base_minutes : Z) (overhead : Q)
    : option bool * list action :=
  let '(booked, t2) :=
    if (cur_ply <=? BOOK_PLIES cfg)%Z then
      match find_book_move w with
      | None => (Some (None, []), [BookLookup])
      | Some found =>
          match option_map fst found with
          | Some mv =>
              if is_null mv then (None, [BookLookup])
              else (Some (submit w "book" mv), [BookLookup])
          | None => (None, [BookLookup])
          end
      end
    else (None, []) in
  match booked with
  | Some (ok, sent) => (ok, t2 ++ sent)
  | None =>
      let '(tabled, t3) :=
        match table_probe w with
        | Some (tbhits, mv :: _) =>
            if (tbhits =? 0)%Z then (None, [EngineAnalyse (Depth 1)])
            else
              match submit w "TB" mv with
              | (Some ok, sent) => (Some ok, EngineAnalyse (Depth 1) :: sent)
              | (None, sent) => (None, EngineAnalyse (Depth 1) :: sent)
              end
        | _ => (None, [EngineAnalyse (Depth 1)])
        end in
      match tabled with
      | Some ok => (Some ok, t2 ++ t3)
      | None =>
          let '(ok, t4) :=
            normal_search cfg w sec_left inc_s cur_ply base_minutes overhead in
          (ok, t2 ++ t3 ++ t4)
      end
  end.

(** [safe_make_move]: the success flag, the engine handle to keep, and
    the actions performed. *)
Definition safe_make_move {engine : Type} (cfg : Config.t) (w : world)
    (eng : engine) (my_ms inc_ms : option Z) (base_minutes_override : option Z)
    : (bool * engine) * list action :=
  let cur_ply :=
    ((fullmove_number w - 1) * 2 + (if turn_white w then 1 else 2))%Z in
  let overhead := fmax 0.02 (inject_Z (MOVE_OVERHEAD_MS cfg) / 1000.0) in
  let sec_left :=
    match my_ms with
    | Some ms => Some (fmax 0.0 (inject_Z ms / 1000.0))
    | None => None
    end in
  let inc_s :=
    match inc_ms with
    | Some ms => fmax 0.0 (inject_Z ms / 1000.0)
    | None => 0.0
    end in
  let base_minutes :=
    match base_minutes_override with
    | Some b => Z.max 1 b
    | None => Z.max 1 (py_round (inject_Z (CHALLENGE_CLOCK_SEC cfg) / 60))
    end in
  let ultra_panic :=
    match sec_left with Some s => Qle_bool s 2.0 | None => false end in
  let hard_panic :=
    match sec_left with Some s => Qle_bool s 12.0 | None => false end in
  let '(outcome, trace) :=
    if ultra_panic then _micro_fallback_move w "ultra"
    else if hard_panic then
      match engine_play w (Time 0.06) with
      | None =>
          let '(ok, t) := _micro_fallback_move w "panic" in
          (ok, EnginePlay (Time 0.06) :: t)
      | Some r =>
          match truthy r with
          | Some mv =>
              let '(ok, t) := submit w "panic" mv in
              (ok, EnginePlay (Time 0.06) :: t)
          | None =>
              let '(ok, t) := _micro_fallback_move w "panic-empty" in
              (ok, EnginePlay (Time 0.06) :: t)
          end
      end
    else after_panic cfg w sec_left inc_s cur_ply base_minutes overhead in
  (* [except Exception: return (False, engine)] *)
  ((default false outcome, eng), trace).

(** The actions that belong to the steps after the ultra-panic branch:
    the hard-panic search, the book, the table probe, the time manager and
    the cached search, and any submission under another tag. *)
Definition later_step (a : action) : bool :=
  match a with
  | EnginePlay (Nodes 2000) => false
  | EnginePlay _ => true
  | FirstLegalMove => false
  | Resign => false
  | SubmitMove tag _ => negb (String.eqb tag "ultra")
  | BoardPush _ => false
  | BookLookup => true
  | EngineAnalyse _ => true
  | ComputeMovetime => true
  | CacheProbe _ => true
  end.

End Pipeline.

(** Worlds used in the pipeline scenarios. *)
Module PipelineScenario.
Import Pipeline.

(** The engine is down, the position has legal moves, the platform
    accepts every submission, the books and tables know nothing. *)
Definition engine_down : world := {|
  engine_play := λ _, None;
  legal_moves := ["e2e4"; "d2d4"];
  make_move := λ _ _, CallOk;
  find_book_move := Some None;
  table_probe := None;
  probe_engine_with_cache := λ _, None;
  report_move := Some tt;
  fullmove_number := 30;
  turn_white := true;
  is_check := false;
  stored_bank := TimeManagement.safe_bank;
  jitter := 1
|}.

(** The engine answers every request with the same move. *)
Definition engine_up : world := {|
  engine_play := λ _, Some (Some "g1f3");
  legal_moves := ["e2e4"; "d2d4"; "g1f3"];
  make_move := λ _ _, CallOk;
  find_book_move := Some None;
  table_probe := Some (0%Z, []);
  probe_engine_with_cache := λ _, Some (Some "g1f3");
  report_move := Some tt;
  fullmove_number := 30;
  turn_white := true;
  is_check := false;
  stored_bank := TimeManagement.safe_bank;
  jitter := 1
|}.

(** As [engine_up], with a cache entry whose report cannot be composed. *)
Definition report_fails : world := {|
  engine_play := λ _, Some (Some "g1f3");
  legal_moves := ["e2e4"; "d2d4"; "g1f3"];
  make_move := λ _ _, CallOk;
  find_book_move := Some None;
  table_probe := Some (0%Z, []);
  probe_engine_with_cache := λ _, Some (Some "g1f3");
  report_move := None;
  fullmove_number := 30;
  turn_white := true;
  is_check := false;
  stored_bank := TimeManagement.safe_bank;
  jitter := 1
|}.

(** As [engine_up], with a book lookup that raises. *)
Definition book_fails : world := {|
  engine_play := λ _, Some (Some "g1f3");
  legal_moves := ["e2e4"; "d2d4"; "g1f3"];
  make_move := λ _ _, CallOk;
  find_book_move := None;
  table_probe := Some (0%Z, []);
  probe_engine_with_cache := λ _, Some (Some "g1f3");
  report_move := Some tt;
  fullmove_number := 30;
  turn_white := true;
  is_check := false;
  stored_bank := TimeManagement.safe_bank;
  jitter := 1
|}.

End PipelineScenario.

(** ** trash_bot.py: result counters and session teardown *)
Module Results.
Import Registry.
Local Open Scope Z_scope.

(** The process-wide [wins], [losses], [draws]. *)
Record counters := { wins : Z; losses : Z; draws : Z }.

(** [inc_result], under the lock. *)
Definition inc_result (kind : string) (c : counters) : counters :=
  if String.eqb kind "win" then
    {| wins := wins c + 1; losses := losses c; draws := draws c |}
  else if String.eqb kind "loss" then
    {| wins := wins c; losses := losses c + 1; draws := draws c |}
  else if String.eqb kind "draw" then
    {| wins := wins c; losses := losses c; draws := draws c + 1 |}
  else c.

Definition games (c : counters) : Z := wins c + losses c + draws c.

(** What [client.games.export] gives: [None] when it raises, otherwise the
    [status] and [winner] fields of the record, each possibly missing (an
    empty or missing record has both missing). *)
Definition export := option (option string * option string).

Definition decisive_status (status : string) : bool :=
  String.eqb status "mate" || String.eqb status "resign"
  || String.eqb status "timeout" || String.eqb status "outoftime"
  || String.eqb status "abandoned" || String.eqb status "nostart".

(** The [try] block of [finalize_game]: the counter to bump, if any.
    [my_color] is [Some true] for white, [Some false] for black. *)
Definition outcome_kind (result : export) (my_color : option bool) : option string :=
  match result with
  | None => None
  | Some (status, winner) =>
      let status := PyStr.lower (default EmptyString status) in
      if decisive_status status then
        match winner with
        | None => Some "draw"
        | Some winner =>
            let mine :=
              (String.eqb winner "white" && bool_decide (my_color = Some true))
              || (String.eqb winner "black" && bool_decide (my_color = Some false)) in
            Some (if mine then "win" else "loss")
        end
      else if String.eqb status "draw"
              || match winner with None => true | Some _ => false end
      then Some "draw"
      else None
  end.

(** [finalize_game]: account for the result, then (in [finally]) release
    the game id. *)
Definition finalize_game (result : export) (game_id : string)
    (my_color : option bool) (st : state) (c : counters) : state * counters :=
  let c' :=
    match outcome_kind result my_color with
    | Some kind => inc_result kind c
    | None => c
    end in
  (remove_active game_id st, c').

(** The number of [remove_active(gid)] in a schedule. *)
Fixpoint releases (gid : string) (sched : list access) : nat :=
  match sched with
  | [] => 0
  | Claim _ :: rest => releases gid rest
  | Release g :: rest => (if decide (g = gid) then 1 else 0) + releases gid rest
  end.

End Results.

(** ** trash_bot.py: the position cache keys ([_migrate_cache_keys]) *)
Module FenCache.
Import Fen.
Local Open Scope Z_scope.

(** A cache entry: the stored move and variation, and the recorded depth
    ([None] when [depth_reached] is missing or [null]). *)
Record entry := {
  bestmove : option string;
  pv : string;
  depth_reached : option Z
}.

(** [entry.get("depth_reached") or 0] *)
Definition depth (e : entry) : Z := default 0 (depth_reached e).

(** The key under which an old key is filed: its normal form, or the key
    itself when [normalize_fen] raises. *)
Definition migrated_key (old_key : string) : string :=
  default old_key (normalize_fen old_key).

(** One turn of the loop of [_migrate_cache_keys]. *)
Definition migrate_step (new : gmap string entry) (item : string * entry)
    : gmap string entry :=
  let '(old_key, entry) := item in
  let nk := migrated_key old_key in
  match new !! nk with
  | Some cur => if depth cur <? depth entry then <[nk := entry]> new else new
  | None => <[nk := entry]> new
  end.

(** [_migrate_cache_keys]; the argument lists [cache.items()] in
    iteration order. *)
Definition _migrate_cache_keys (cache : list (string * entry)) : gmap string entry :=
  foldl migrate_step ∅ cache.

End FenCache.

(** Readings of the action log of the pipeline. *)
Module PipelineLog.
Import Pipeline.

(** The actions of the book, table-probe and normal-search steps. *)
Definition search_step (a : action) : bool :=
  match a with
  | BookLookup | EngineAnalyse _ | ComputeMovetime | CacheProbe _ => true
  | _ => false
  end.

(** The moves pushed on the board, in order. *)
Definition pushes (t : list action) : list move :=
  omap (λ a, match a with BoardPush mv => Some mv | _ => None end) t.

(** The log ends with the submission of a move that the platform accepts
    and the push of that move, and has no other push. *)
Definition accepted (w : world) (t : list action) : Prop :=
  ∃ pre tag mv,
    t = pre ++ [SubmitMove tag mv; BoardPush mv] ∧ pushes pre = [] ∧
    make_move w tag mv = CallOk.

(** The push was made by the normal search on the move of the cached
    search, whose report then raised. *)
Definition unreported (w : world) (t : list action) : Prop :=
  report_move w = None ∧
  ∃ pre l mv, t = pre ++ [CacheProbe l; SubmitMove "normal" mv; BoardPush mv].

(** The log does not end with a push of the normal search. *)
Definition not_normal (t : list action) : Prop :=
  ∀ pre mv, t ≠ pre ++ [SubmitMove "normal" mv; BoardPush mv].

(** The steps before the normal search: a step that reports success has
    pushed the move it has just had accepted; a step pushes nothing else,
    and nothing when it does not report success. *)
Definition disciplined (w : world) (ok : option bool) (t : list action) : Prop :=
  (default false ok = true → accepted w t ∧ not_normal t) ∧
  (default false ok = false → pushes t = []).

(** The whole pipeline: as above, but a push that is not followed by
    success is possible, in the normal search with a failed report. *)
Definition settled (w : world) (ok : option bool) (t : list action) : Prop :=
  (default false ok = true → accepted w t ∧ ¬ unreported w t) ∧
  (pushes t = [] ∨ accepted w t) ∧
  (default false ok = false → pushes t = [] ∨ unreported w t).

End PipelineLog.

(** ** chatter.py: posting a chat line ([Chatter._post]) *)
Module Chat.
Local Open Scope Z_scope.

(** Chat text as a sequence of Unicode code points. *)
Definition text : Type := list N.

(** [str.isspace] on a code point. *)
Definition is_space (c : N) : bool :=
  ((9 <=? c) && (c <=? 13) || (28 <=? c) && (c <=? 32)
   || (c =? 133) || (c =? 160) || (c =? 5760)
   || (8192 <=? c) && (c <=? 8202)
   || (c =? 8232) || (c =? 8233) || (c =? 8239) || (c =? 8287)
   || (c =? 12288))%N.

Fixpoint lstrip (s : text) : text :=
  match s with
  | [] => []
  | c :: s' => if is_space c then lstrip s' else s
  end.

(** [str.strip()] *)
Definition strip (s : text) : text := reverse (lstrip (reverse (lstrip s))).

(** The slice [s[:n]], for any integer [n]. *)
Definition slice_to (s : text) (n : Z) : text :=
  if 0 <=? n then take (Z.to_nat n) s
  else take (length s - Z.to_nat (- n)) s.

(** The horizontal ellipsis appended to a truncated line. *)
Definition ellipsis : N := 8230%N.

(** The text [_post] hands to the platform, [None] when it posts nothing
    (the text is empty once stripped). *)
Definition posted_text (max_len : Z) (t : text) : option text :=
  let t := strip t in
  match t with
  | [] => None
  | _ =>
      if max_len <? Z.of_nat (length t)
      then Some (slice_to t (max_len - 1) ++ [ellipsis])
      else Some t
  end.

End Chat.

(** ** trash_bot.py: engine thread count ([auto_threads]) *)
Module Threads.
Local Open Scope Z_scope.

(** [auto_threads]: [engine_threads] is the integer in [ENGINE_THREADS]
    ([None] for "auto" or anything [int] rejects), [cpu_count] what
    [os.cpu_count()] returns. *)
Definition auto_threads (engine_threads cpu_count : option Z) (max_active_games : Z) : Z :=
  match engine_threads with
  | Some t => Z.max 1 t
  | None =>
      let cores :=
        match cpu_count with
        | Some c => if c =? 0 then 2 else c
        | None => 2
        end in
      Z.max 1 (cores / Z.max 1 max_active_games)
  end.

End Threads.

(* ===================================================================== *)
(** * Part II.  Properties                                                *)
(* ===================================================================== *)

Module TimeManagementFacts.
Import TimeManagement.
Local Open Scope Q_scope.

Lemma fmax_cases (a b : Q) :
  (b <= a /\ fmax a b = a) \/ (a < b /\ fmax a b = b).
Proof.
  unfold fmax. destruct (Qle_bool b a) eqn:E.
  - left. split; [now apply Qle_bool_iff | reflexivity].
  - right. split; [| reflexivity].
    apply Qnot_le_lt. intros H. apply Qle_bool_iff in H. congruence.
Qed.

Lemma fmin_cases (a b : Q) :
  (a <= b /\ fmin a b = a) \/ (b < a /\ fmin a b = b).
Proof.
  unfold fmin. destruct (Qle_bool a b) eqn:E.
  - left. split; [now apply Qle_bool_iff | reflexivity].
  - right. split; [| reflexivity].
    apply Qnot_le_lt. intros H. apply Qle_bool_iff in H. congruence.
Qed.

Ltac split_clamps :=
  repeat match goal with
  | |- context [fmax ?a ?b] =>
      let E := fresh "E" in
      destruct (fmax_cases a b) as [[? E] | [? E]]; rewrite E in *; clear E
  | |- context [fmin ?a ?b] =>
      let E := fresh "E" in
      destruct (fmin_cases a b) as [[? E] | [? E]]; rewrite E in *; clear E
  | _ : context [fmax ?a ?b] |- _ =>
      let E := fresh "E" in
      destruct (fmax_cases a b) as [[? E] | [? E]]; rewrite E in *; clear E
  | _ : context [fmin ?a ?b] |- _ =>
      let E := fresh "E" in
      destruct (fmin_cases a b) as [[? E] | [? E]]; rewrite E in *; clear E
  end.

Lemma fmax_lower_l (a b : Q) : a <= fmax a b.
Proof. destruct (fmax_cases a b) as [[? ->] | [? ->]]; lra. Qed.

Lemma fmax_lower_r (a b : Q) : b <= fmax a b.
Proof. destruct (fmax_cases a b) as [[? ->] | [? ->]]; lra. Qed.

Lemma fmin_upper_l (a b : Q) : fmin a b <= a.
Proof. destruct (fmin_cases a b) as [[? ->] | [? ->]]; lra. Qed.

Lemma fmin_upper_r (a b : Q) : fmin a b <= b.
Proof. destruct (fmin_cases a b) as [[? ->] | [? ->]]; lra. Qed.

Lemma Qle_bool_false (a b : Q) : Qle_bool a b = false <-> b < a.
Proof.
  split.
  - intros E. apply Qnot_le_lt. intros H. apply Qle_bool_iff in H. congruence.
  - intros H. destruct (Qle_bool a b) eqn:E; [| reflexivity].
    apply Qle_bool_iff in E. lra.
Qed.

(** The two branches of [compute_movetime]. *)
Lemma compute_movetime_sudden_death r i p chk frc bm j :
  fmax 0.0 r <= safe_bank (fmax 0.0 i) ->
  compute_movetime r i p chk frc bm j = fmax 0.2 (fmax 0.0 r * 0.25).
Proof.
  intros H. unfold compute_movetime.
  apply Qle_bool_iff in H. now rewrite H.
Qed.

(** Normalised inputs: negative values behave as zero. *)
Lemma fmax_zero_idem (x : Q) : fmax 0.0 (fmax 0.0 x) = fmax 0.0 x.
Proof.
  unfold fmax. destruct (Qle_bool x 0.0) eqn:E; [reflexivity |].
  now rewrite E.
Qed.

Lemma fmax_zero_nonneg (x : Q) : 0 <= fmax 0.0 x.
Proof. pose proof (fmax_lower_l 0.0 x). lra. Qed.

Lemma compute_movetime_normalised r i p chk frc bm j :
  compute_movetime r i p chk frc bm j =
  compute_movetime (fmax 0.0 r) (fmax 0.0 i) (Z.max 0 p) chk frc bm j.
Proof.
  unfold compute_movetime.
  rewrite !fmax_zero_idem. now rewrite (Z.max_r 0 (Z.max 0 p)) by lia.
Qed.

(** Sanity runs of the module's own scenarios, with a neutral jitter. *)
Example scenario_bullet :
  Qred (compute_movetime 60 0 10 false false 15 1) = 171 # 70.
Proof. vm_compute. reflexivity. Qed.

Example scenario_phase_scaling :
  compute_movetime 900 10 65 false false 15 1 <
  compute_movetime 900 10 5 false false 15 1.
Proof. vm_compute. reflexivity. Qed.

(** C2, as stated, fails: with 0.4 s left (bank 3 s) the function returns
    the 0.2 s floor, which is twice a quarter of the remaining time. *)
Lemma sudden_death_quarter_counterexample :
  0.4 <= safe_bank (fmax 0.0 0) /\
  compute_movetime 0.4 0 0 false false 15 1 == 0.2 /\
  ~ compute_movetime 0.4 0 0 false false 15 1 == 0.4 * 0.25 /\
  ~ compute_movetime 0.4 0 0 false false 15 1 <= 0.4 * 0.25.
Proof.
  split; [| split; [| split]]; vm_compute; congruence.
Qed.

(** C2 (amended).  When the remaining time is at or below the safety bank
    [3 + increment], [compute_movetime] returns the larger of 0.2 s and a
    quarter of the (non-negative) remaining time, whatever the jitter: it is
    exactly a quarter of the remaining time once that time is at least
    0.8 s, it is the 0.2 s floor below that, and it never exceeds
    [max(0.2, remaining * 0.25)]. *)
Theorem sudden_death_floor_or_quarter r i p chk frc bm j :
  r <= safe_bank (fmax 0.0 i) ->
  compute_movetime r i p chk frc bm j = fmax 0.2 (fmax 0.0 r * 0.25) /\
  (0.8 <= r -> compute_movetime r i p chk frc bm j == r * 0.25) /\
  (r <= 0.8 -> compute_movetime r i p chk frc bm j == 0.2) /\
  compute_movetime r i p chk frc bm j <= fmax 0.2 (r * 0.25).
Proof.
  intros Hr.
  assert (HT : fmax 0.0 r <= safe_bank (fmax 0.0 i)).
  { pose proof (fmax_zero_nonneg i). unfold safe_bank in *.
    destruct (fmax_cases 0.0 r) as [[? ->] | [? ->]]; lra. }
  rewrite (compute_movetime_sudden_death _ _ p chk frc bm j HT).
  split; [reflexivity |].
  split; [intros ? | split; [intros ? |]]; split_clamps; lra.
Qed.

Lemma sudden_death_floor_or_quarter_witness :
  2 <= safe_bank (fmax 0.0 0) /\
  compute_movetime 2 0 0 false false 15 1 == 2 * 0.25.
Proof.
  split; [vm_compute; congruence |].
  refine (proj1 (proj2 (sudden_death_floor_or_quarter 2 0 0 false false 15 1 _)) _);
    vm_compute; congruence.
Defined.

Lemma fmax_zero_neg (x : Q) : x <= 0 -> fmax 0.0 x = fmax 0.0 0.
Proof.
  intros H. unfold fmax.
  replace (Qle_bool x 0.0) with true; [reflexivity |].
  symmetry. apply Qle_bool_iff. lra.
Qed.

(** C3 (the code at the failing input).  With 3.5 s on the clock and no
    increment the bank is 3 s, so half a second may be spent without
    touching it; the 2 s floor, applied after the bank clamp, is what
    [compute_movetime] returns under a neutral jitter: more than the
    remaining time minus the bank. *)
Lemma bank_spent_by_floor :
  safe_bank (fmax 0.0 0) < 3.5 /\ 0.85 <= 1 /\ 1 <= 1.15 /\
  compute_movetime 3.5 0 0 false false 15 1 == 2 /\
  ~ compute_movetime 3.5 0 0 false false 15 1 <= 3.5 - safe_bank (fmax 0.0 0).
Proof.
  split; [| split; [| split; [| split]]]; vm_compute; congruence.
Qed.

(** The jitter, applied after the clamps, also exceeds the spendable time:
    with 10 s above the bank and a 100 s increment the clamp binds at 10 s
    and a draw of 1.15 returns 11.5 s. *)
Example bank_overspend_by_jitter :
  compute_movetime 113 100 0 false false 15 1.15 == 11.5 /\
  113 - safe_bank (fmax 0.0 100) == 10.
Proof. split; vm_compute; congruence. Qed.

(** The idealised [compute_movetime] is [compute_movetime_at] at the exact
    sum. *)
Lemma compute_movetime_exact r i p chk frc bm j :
  compute_movetime r i p chk frc bm j =
  compute_movetime_at (safe_bank (fmax 0.0 i)) r i p chk frc bm j.
Proof. reflexivity. Qed.

(** The two branches, by the test on the stored bank. *)
Lemma compute_movetime_at_sudden_death bank r i p chk frc bm j :
  fmax 0.0 r <= bank ->
  compute_movetime_at bank r i p chk frc bm j = fmax 0.2 (fmax 0.0 r * 0.25).
Proof.
  intros H. unfold compute_movetime_at.
  apply Qle_bool_iff in H. now rewrite H.
Qed.

Lemma compute_movetime_at_normal bank r i p chk frc bm j :
  bank < fmax 0.0 r ->
  compute_movetime_at bank r i p chk frc bm j =
  clamped_budget_at bank (fmax 0.0 r) (fmax 0.0 i) (Z.max 0 p) chk frc bm * j.
Proof.
  intros H. unfold compute_movetime_at.
  apply Qle_bool_false in H. now rewrite H.
Qed.

Lemma clamped_budget_at_floor bank T I P chk frc bm :
  2.0 <= clamped_budget_at bank T I P chk frc bm.
Proof.
  unfold clamped_budget_at.
  match goal with |- _ <= fmax ?a ?b => pose proof (fmax_lower_r a b) end.
  lra.
Qed.

(** Whatever the stored bank, the value returned is at least 0.2 s. *)
Lemma compute_movetime_at_floor bank r i p chk frc bm j :
  0.85 <= j -> 0.2 <= compute_movetime_at bank r i p chk frc bm j.
Proof.
  intros Hlo.
  destruct (Qlt_le_dec bank (fmax 0.0 r)) as [H | H].
  - rewrite (compute_movetime_at_normal _ _ i p chk frc bm j H).
    pose proof (clamped_budget_at_floor bank (fmax 0.0 r) (fmax 0.0 i)
                  (Z.max 0 p) chk frc bm).
    nra.
  - rewrite (compute_movetime_at_sudden_death _ _ i p chk frc bm j H).
    apply fmax_lower_l.
Qed.

(** C10.  For every input and every jitter in [0.85, 1.15] the returned
    value is strictly positive and at least 0.2 s, whatever the value the
    code has stored for the bank: negative times, increments and plies
    behave as zero; when the code's test [T <= safe_bank] holds of the
    stored bank, the sudden-death branch returns [max(0.2, T * 0.25)],
    which is at least 0.2; when it fails, the normal branch has a budget of
    at least 2.0 before the jitter, and returns at least 2.0 times the
    jitter (so at least 1.7). *)
Theorem movetime_at_least_floor bank r i p chk frc bm j :
  0.85 <= j -> j <= 1.15 ->
  (0 < compute_movetime r i p chk frc bm j /\
   0.2 <= compute_movetime r i p chk frc bm j) /\
  (0 < compute_movetime_at bank r i p chk frc bm j /\
   0.2 <= compute_movetime_at bank r i p chk frc bm j) /\
  (r <= 0 -> compute_movetime r i p chk frc bm j =
             compute_movetime 0 i p chk frc bm j) /\
  (i <= 0 -> compute_movetime r i p chk frc bm j =
             compute_movetime r 0 p chk frc bm j) /\
  ((p <= 0)%Z -> compute_movetime r i p chk frc bm j =
                 compute_movetime r i 0 chk frc bm j) /\
  (fmax 0.0 r <= bank ->
     compute_movetime_at bank r i p chk frc bm j = fmax 0.2 (fmax 0.0 r * 0.25) /\
     0.2 <= fmax 0.2 (fmax 0.0 r * 0.25)) /\
  (bank < fmax 0.0 r ->
     2.0 <= clamped_budget_at bank (fmax 0.0 r) (fmax 0.0 i) (Z.max 0 p) chk frc bm /\
     2.0 * j <= compute_movetime_at bank r i p chk frc bm j /\
     1.7 <= compute_movetime_at bank r i p chk frc bm j).
Proof.
  intros Hlo Hhi.
  pose proof (compute_movetime_at_floor bank r i p chk frc bm j Hlo) as Hat.
  pose proof (compute_movetime_at_floor (safe_bank (fmax 0.0 i)) r i p chk frc bm j Hlo)
    as Hex.
  rewrite <- compute_movetime_exact in Hex.
  split; [split; [lra | exact Hex] |].
  split; [split; [lra | exact Hat] |].
  split; [| split; [| split; [| split]]].
  - intros H. unfold compute_movetime. now rewrite (fmax_zero_neg r H).
  - intros H. unfold compute_movetime. now rewrite (fmax_zero_neg i H).
  - intros H. unfold compute_movetime. now rewrite (Z.max_l 0 p H).
  - intros H. split; [now apply compute_movetime_at_sudden_death |].
    apply fmax_lower_l.
  - intros H. rewrite (compute_movetime_at_normal _ _ i p chk frc bm j H).
    pose proof (clamped_budget_at_floor bank (fmax 0.0 r) (fmax 0.0 i)
                  (Z.max 0 p) chk frc bm) as Hfl.
    split; [exact Hfl |]. split; nra.
Qed.

Lemma movetime_at_least_floor_witness :
  0.85 <= 1 /\ 1 <= 1.15 /\
  0.2 <= compute_movetime (-5) (-1) (-3) true true 0 1 /\
  (3 < fmax 0.0 60 /\ 2.0 * 1 <= compute_movetime_at 3 60 0 10 false false 15 1).
Proof.
  assert (Hlo : 0.85 <= 1) by (vm_compute; congruence).
  assert (Hhi : 1 <= 1.15) by (vm_compute; congruence).
  split; [exact Hlo |]. split; [exact Hhi |].
  split.
  - destruct (movetime_at_least_floor 3 (-5) (-1) (-3) true true 0 1 Hlo Hhi)
      as ((_ & H) & _).
    exact H.
  - assert (Hn : 3 < fmax 0.0 60) by (vm_compute; reflexivity).
    split; [exact Hn |].
    destruct (movetime_at_least_floor 3 60 0 10 false false 15 1 Hlo Hhi)
      as (_ & _ & _ & _ & _ & _ & H).
    destruct (H Hn) as (_ & H2 & _). exact H2.
Defined.

End TimeManagementFacts.

Module RegistryFacts.
Import Config Registry RegistryLog.

Lemma claim_game_granted gid st :
  gid ∉ active_games st →
  claim_game gid st = (true, set_active (λ s, {[gid]} ∪ s) st).
Proof. intros H. unfold claim_game. by rewrite decide_False. Qed.

Lemma claim_game_refused gid st :
  gid ∈ active_games st → claim_game gid st = (false, st).
Proof. intros H. unfold claim_game. by rewrite decide_True. Qed.

Lemma claim_game_other gid g st :
  g ≠ gid →
  (gid ∈ active_games (claim_game g st).2 ↔ gid ∈ active_games st).
Proof.
  intros Hne. unfold claim_game.
  destruct (decide (g ∈ active_games st)); simpl; [done |]. set_solver.
Qed.

Lemma granted_cons gid g r log :
  granted gid ((g, r) :: log) =
  ((if decide ((g, r) = (gid, true)) then 1 else 0) + granted gid log)%nat.
Proof. unfold granted. rewrite filter_cons. by case_decide. Qed.

Lemma refused_cons gid g r log :
  refused gid ((g, r) :: log) =
  ((if decide ((g, r) = (gid, false)) then 1 else 0) + refused gid log)%nat.
Proof. unfold refused. rewrite filter_cons. by case_decide. Qed.

Lemma run_claim gid rest st :
  run (Claim gid :: rest) st =
  ((gid, (claim_game gid st).1) :: (run rest (claim_game gid st).2).1,
   (run rest (claim_game gid st).2).2).
Proof.
  cbn [run]. destruct (claim_game gid st) as [r st1]. cbn [fst snd].
  by destruct (run rest st1) as [log st2].
Qed.

(** Once [gid] is registered and nobody releases it, no claim of it is
    granted, each attempt is refused and it stays registered. *)
Lemma run_registered gid sched : ∀ st,
  never_released gid sched → gid ∈ active_games st →
  granted gid (run sched st).1 = 0%nat ∧
  refused gid (run sched st).1 = attempts gid sched ∧
  gid ∈ active_games (run sched st).2.
Proof.
  induction sched as [| [g | g] rest IH]; intros st Hnr Hin.
  - done.
  - rewrite run_claim. cbn [fst snd attempts never_released] in *.
    rewrite granted_cons, refused_cons.
    destruct (decide (g = gid)) as [-> | Hne].
    + rewrite (claim_game_refused gid st Hin). cbn [fst snd].
      destruct (IH st Hnr Hin) as (Hg & Hr & Hm).
      rewrite decide_False by congruence. rewrite decide_True by done.
      rewrite Hg, Hr. done.
    + assert (Hin' : gid ∈ active_games (claim_game g st).2)
        by by apply claim_game_other.
      destruct (IH _ Hnr Hin') as (Hg & Hr & Hm).
      rewrite !decide_False by congruence. rewrite Hg, Hr. done.
  - cbn [run attempts never_released] in *. destruct Hnr as [Hne Hnr].
    apply IH; [done |]. unfold remove_active, set_active. simpl. set_solver.
Qed.

(** From a state where [gid] is free: the first claim is granted and every
    later one is refused. *)
Lemma run_free gid sched : ∀ st,
  never_released gid sched → gid ∉ active_games st →
  granted gid (run sched st).1 = Nat.min 1 (attempts gid sched) ∧
  (granted gid (run sched st).1 + refused gid (run sched st).1 =
     attempts gid sched)%nat ∧
  (gid ∈ active_games (run sched st).2 ↔ (0 < attempts gid sched)%nat).
Proof.
  induction sched as [| [g | g] rest IH]; intros st Hnr Hin.
  - cbn. split; [done |]. split; [done |]. split; [done | lia].
  - rewrite run_claim. cbn [fst snd attempts never_released] in *.
    rewrite granted_cons, refused_cons.
    destruct (decide (g = gid)) as [-> | Hne].
    + rewrite (claim_game_granted gid st Hin). cbn [fst snd].
      assert (Hin' : gid ∈ active_games (set_active (λ s, {[gid]} ∪ s) st))
        by (simpl; set_solver).
      destruct (run_registered gid rest _ Hnr Hin') as (Hg & Hr & Hm).
      rewrite decide_True by done. rewrite decide_False by congruence.
      rewrite Hg, Hr. split; [lia |]. split; [lia |]. split; [lia | done].
    + assert (Hin' : gid ∉ active_games (claim_game g st).2)
        by by rewrite claim_game_other.
      destruct (IH _ Hnr Hin') as (Hg & Hr & Hm).
      rewrite !decide_False by congruence. cbn [Nat.add]. done.
  - cbn [run attempts never_released] in *. destruct Hnr as [Hne Hnr].
    apply IH; [done |]. unfold remove_active, set_active. simpl. set_solver.
Qed.

(** C1.  Each call of [claim_game] either is granted (returns [True],
    [gid] was free and is added to the registry) or is refused (returns
    [False], registry unchanged).  In every schedule of lock-protected
    accesses that never releases [gid], starting with [gid] free, exactly
    one of the calls [claim_game(gid)] (if there is any) is granted and all
    the others are refused; starting with [gid] registered, none is
    granted. *)
Theorem claim_game_exactly_one gid sched st :
  never_released gid sched →
  (∀ st0,
     ((claim_game gid st0).1 = true →
        (gid ∉ active_games st0) ∧
        active_games (claim_game gid st0).2 = {[gid]} ∪ active_games st0) ∧
     ((claim_game gid st0).1 = false →
        gid ∈ active_games st0 ∧ (claim_game gid st0).2 = st0)) ∧
  (gid ∉ active_games st → (0 < attempts gid sched)%nat →
     granted gid (run sched st).1 = 1%nat ∧
     refused gid (run sched st).1 = (attempts gid sched - 1)%nat ∧
     gid ∈ active_games (run sched st).2) ∧
  (gid ∈ active_games st →
     granted gid (run sched st).1 = 0%nat ∧
     refused gid (run sched st).1 = attempts gid sched).
Proof.
  intros Hnr. split; [| split].
  - intros st0. unfold claim_game. case_decide; simpl; split; intros ?; done.
  - intros Hfree Hpos.
    destruct (run_free gid sched st Hnr Hfree) as (Hg & Hsum & Hm).
    split; [lia |]. split; [lia |]. by apply Hm.
  - intros Hreg. destruct (run_registered gid sched st Hnr Hreg) as (? & ? & ?).
    done.
Qed.

Lemma claim_game_exactly_one_witness :
  granted "g1"
    (run [Claim "g1"; Claim "g2"; Claim "g1"; Release "g2"; Claim "g1"] initial).1
  = 1%nat.
Proof.
  refine (proj1 (proj1 (proj2 (claim_game_exactly_one "g1"
    [Claim "g1"; Claim "g2"; Claim "g1"; Release "g2"; Claim "g1"] initial _)) _ _)).
  - simpl. repeat split; discriminate.
  - simpl. set_solver.
  - simpl. lia.
Defined.

End RegistryFacts.

Module DispatchFacts.
Import Config Registry DispatchScenario.
Local Open Scope Q_scope.

Lemma http_throttle_registries cfg st :
  pending_challenges (http_throttle cfg st) = pending_challenges st ∧
  last_challenged (http_throttle cfg st) = last_challenged st.
Proof.
  unfold http_throttle.
  destruct (negb (Qle_bool (next_http_ok_at st) (clock st))); done.
Qed.

(** [challenge_bot] writes neither registry, whatever the platform
    answers: [add_pending] and [mark_challenged] have no caller. *)
Lemma challenge_bot_registries cfg outcome u st :
  pending_challenges (challenge_bot cfg outcome u st) = pending_challenges st ∧
  last_challenged (challenge_bot cfg outcome u st) = last_challenged st.
Proof.
  destruct (http_throttle_registries cfg st) as [Hp Hl].
  unfold challenge_bot, sleep.
  destruct outcome; cbn [pending_challenges last_challenged]; done.
Qed.

(** C4 (the code at the failing input).  After the dispatch loop has sent
    a challenge to ["Rival"], neither the pending-challenge registry nor the
    last-challenged map mentions that opponent; twenty seconds later, well
    inside [RECHALLENGE_COOLDOWN], [should_challenge] answers [True] again
    and a second challenge is created. *)
Theorem challenged_opponent_not_recorded :
  created_challenges after_first_challenge = ["Rival"] ∧
  pending_challenges after_first_challenge !! "rival" = None ∧
  last_challenged after_first_challenge !! "rival" = None ∧
  clock after_first_challenge == 20 ∧
  inject_Z (RECHALLENGE_COOLDOWN cfg) == 900 ∧
  (should_challenge cfg strong_rivals "Rival" after_first_challenge).1 = true ∧
  created_challenges
    (dispatch_candidate cfg strong_rivals (Created 0) "Rival" after_first_challenge)
  = ["Rival"; "Rival"].
Proof.
  split; [vm_compute; reflexivity |].
  split; [vm_compute; reflexivity |].
  split; [vm_compute; reflexivity |].
  split; [vm_compute; reflexivity |].
  split; [vm_compute; reflexivity |].
  split; vm_compute; reflexivity.
Qed.

End DispatchFacts.

Module RetryFacts.
Import Retry RetryScenario.
Local Open Scope Z_scope.

Section Policy.
Context {V : Type}.
Variable cfg : Config.t.

Abbreviation MAX := (Config.MAX_NET_RETRIES cfg).
Abbreviation DELAY := (Config.RECONNECT_DELAY_SEC cfg).

(** One turn of the loop, with the two [except] clauses merged. *)
Lemma retry_loop_step fuel (fn : nat → outcome V) k attempt b naps :
  retry_loop cfg (S fuel) fn k attempt b naps =
  match fn k with
  | Returns v => (Returned v, S k, naps)
  | Raises e =>
      if is_rate_limit e then
        let pause := match retry_after e with Some n => n | None => b end in
        if pause <? 0 then (SleepRejected, S k, naps)
        else retry_loop cfg fuel fn (S k) attempt (Z.min (b * 2) 1800)
               (naps ++ [RateLimitNap pause])
      else if _is_transient_net_err e then
        if MAX <? attempt + 1 then (RetriesExceeded, S k, naps)
        else if negb (Qle_bool 0 DELAY) then (SleepRejected, S k, naps)
        else retry_loop cfg fuel fn (S k) (attempt + 1) b
               (naps ++ [TransientNap DELAY])
      else (Propagated e, S k, naps)
  end.
Proof.
  cbn [retry_loop]. destruct (fn k) as [v | e]; [reflexivity |].
  unfold is_rate_limit.
  destruct (is_api_error e), (contains "429" (message e)); reflexivity.
Qed.







End Policy.

(** The scenario of the specification: two 429 signals, then success. *)
Example two_rate_limits_then_success :
  _retry_call (Config.defaults "icbmbot") 10
    (λ k, if (k <? 2)%nat then Raises too_many_requests else Returns tt)
  = (Returned tt, 3%nat, [RateLimitNap 60; RateLimitNap 120]).
Proof. vm_compute. reflexivity. Qed.



End RetryFacts.

Module FenFacts.
Import Fen.

Lemma append_empty_r (s : string) : s +:+ "" = s.
Proof.
  induction s as [| c s IH]; [done |].
  change (String c s +:+ "") with (String c (s +:+ "")). by rewrite IH.
Qed.

Lemma append_snoc (a w : string) (c : ascii) :
  (a +:+ String c "") +:+ w = a +:+ String c w.
Proof.
  induction a as [| d a IH]; [done |].
  change ((String d a +:+ String c "") +:+ w)
    with (String d ((a +:+ String c "") +:+ w)).
  by rewrite IH.
Qed.

Lemma is_empty_append (a w : string) :
  is_empty (a +:+ w) = is_empty a && is_empty w.
Proof. by destruct a. Qed.

Lemma is_empty_true (s : string) : is_empty s = true → s = "".
Proof. by destruct s. Qed.

(** Stripping does not change the fields. *)
Lemma split_lstrip (s : string) : split_acc "" (lstrip s) = split_acc "" s.
Proof.
  induction s as [| c s IH]; [done |].
  cbn [lstrip split_acc]. destruct (is_space c) eqn:E; [done |].
  cbn [split_acc]. by rewrite E.
Qed.

Lemma split_rstrip (s : string) : ∀ acc,
  split_acc acc (rstrip s) = split_acc acc s.
Proof.
  induction s as [| c s IH]; intros acc; [done |].
  cbn [rstrip]. destruct (is_space c) eqn:E; cbn [andb].
  - destruct (is_empty (rstrip s)) eqn:Er.
    + cbn [split_acc]. rewrite E.
      assert (Hs : split_acc "" s = []).
      { rewrite <- IH. by rewrite (is_empty_true _ Er). }
      rewrite Hs. by destruct (is_empty acc).
    + cbn [split_acc]. rewrite E. by rewrite !IH.
  - cbn [split_acc]. rewrite E. by rewrite IH.
Qed.

Lemma split_strip (s : string) : split (strip s) = split s.
Proof. unfold split, strip. by rewrite split_lstrip, split_rstrip. Qed.

(** Reading through a field extends the current run. *)
Lemma split_acc_field (w : string) : ∀ acc rest,
  no_space w = true →
  split_acc acc (w +:+ rest) = split_acc (acc +:+ w) rest.
Proof.
  induction w as [| c w IH]; intros acc rest Hw.
  - change ("" +:+ rest) with rest. by rewrite append_empty_r.
  - cbn in Hw. apply andb_prop in Hw as [Hc Hw].
    apply negb_true_iff in Hc.
    change (String c w +:+ rest) with (String c (w +:+ rest)).
    cbn [split_acc]. rewrite Hc. rewrite IH by done.
    by rewrite append_snoc.
Qed.

Lemma split_acc_space (acc rest : string) :
  is_empty acc = false →
  split_acc acc (" " +:+ rest) = acc :: split_acc "" rest.
Proof.
  intros H. change (" " +:+ rest) with (String " "%char rest).
  cbn [split_acc]. by rewrite H.
Qed.

(** Splitting the single-space join of fields gives the fields back. *)
Lemma split_join (ws : list string) :
  Forall field ws → split (join " " ws) = ws.
Proof.
  unfold split. induction 1 as [| w ws [Hne Hns] Hws IH]; [done |].
  destruct ws as [| w2 ws].
  - cbn [join]. rewrite <- (append_empty_r w) at 1.
    rewrite split_acc_field by done.
    change ("" +:+ w) with w. cbn [split_acc]. by rewrite Hne.
  - change (join " " (w :: w2 :: ws)) with (w +:+ " " +:+ join " " (w2 :: ws)).
    rewrite split_acc_field by done.
    change ("" +:+ w) with w. rewrite split_acc_space by done.
    by rewrite IH.
Qed.

Lemma is_ep_square_spec (ep : string) :
  is_ep_square ep = true ↔
  ∃ f r, ep = String f (String r "") ∧
         (97 ≤ nat_of_ascii f ≤ 104)%nat ∧ (r = "3"%char ∨ r = "6"%char).
Proof.
  split.
  - destruct ep as [| f [| r [| ? ?]]]; try done.
    cbv beta iota zeta delta [is_ep_square].
    intros H. apply andb_prop in H as [Hf Hr]. apply andb_prop in Hf as [H1 H2].
    apply Nat.leb_le in H1, H2. exists f, r. split; [done |]. split; [lia |].
    apply orb_prop in Hr as [Hr | Hr]; apply Ascii.eqb_eq in Hr; auto.
  - intros (f & r & -> & [H1 H2] & Hr).
    cbv beta iota zeta delta [is_ep_square].
    apply Nat.leb_le in H1, H2. rewrite H1, H2.
    by destruct Hr as [-> | ->].
Qed.

Lemma sanitize_ep_cases (ep : string) :
  (ep ≠ "-" → is_ep_square ep = false → sanitize_ep ep = "-") ∧
  (ep = "-" ∨ is_ep_square ep = true → sanitize_ep ep = ep).
Proof.
  unfold sanitize_ep. split.
  - intros Hne Hsq. rewrite Hsq. apply String.eqb_neq in Hne. by rewrite Hne.
  - intros [-> | Hsq]; [done |]. rewrite Hsq. by rewrite andb_false_r.
Qed.

Lemma normalize_fen_fields b t c ep rest :
  Forall field (b :: t :: c :: ep :: rest) →
  normalize_fen (join " " (b :: t :: c :: ep :: rest)) =
  Some (join " " [b; t; c; sanitize_ep ep]).
Proof.
  intros H. unfold normalize_fen. by rewrite split_strip, (split_join _ H).
Qed.

(** C6.  [normalize_fen] is a function of its argument, and in fact of the
    first four fields only: two FEN strings that differ only in the
    halfmove clock and the fullmove number get the same key, namely the
    board, side to move, castling rights and sanitised en-passant field
    joined by single spaces; the en-passant field is kept when it is ["-"]
    or a square of file a-h and rank 3 or 6, and replaced by ["-"]
    otherwise. *)
Theorem normalize_fen_key :
  (∀ f1 f2, f1 = f2 → normalize_fen f1 = normalize_fen f2) ∧
  (∀ f1 f2, take 4 (split f1) = take 4 (split f2) →
            normalize_fen f1 = normalize_fen f2) ∧
  (∀ b t c ep h1 m1 h2 m2,
     field b → field t → field c → field ep →
     field h1 → field m1 → field h2 → field m2 →
     normalize_fen (join " " [b; t; c; ep; h1; m1]) =
     normalize_fen (join " " [b; t; c; ep; h2; m2]) ∧
     normalize_fen (join " " [b; t; c; ep; h1; m1]) =
     Some (join " " [b; t; c; sanitize_ep ep])) ∧
  (∀ ep, (ep ≠ "-" → is_ep_square ep = false → sanitize_ep ep = "-") ∧
         (ep = "-" ∨ is_ep_square ep = true → sanitize_ep ep = ep)) ∧
  (∀ ep, is_ep_square ep = true ↔
         ∃ f r, ep = String f (String r "") ∧
                (97 ≤ nat_of_ascii f ≤ 104)%nat ∧
                (r = "3"%char ∨ r = "6"%char)).
Proof.
  split; [by intros ?? -> |].
  split.
  { intros f1 f2 H. unfold normalize_fen. rewrite !split_strip.
    destruct (split f1) as [| a1 [| b1 [| c1 [| d1 ?]]]],
             (split f2) as [| a2 [| b2 [| c2 [| d2 ?]]]];
      simplify_eq/=; done. }
  split.
  { intros b t c ep h1 m1 h2 m2 Hb Ht Hc Hep Hh1 Hm1 Hh2 Hm2.
    rewrite !normalize_fen_fields by (repeat (constructor; [done |]); constructor).
    done. }
  split; [apply sanitize_ep_cases | apply is_ep_square_spec].
Qed.

Lemma normalize_fen_key_witness :
  normalize_fen "rnbqkbnr/pppppppp/8/8/4P3/8/PPPP1PPP/RNBQKBNR b KQkq e9 0 1" =
  normalize_fen "rnbqkbnr/pppppppp/8/8/4P3/8/PPPP1PPP/RNBQKBNR b KQkq e9 37 52" ∧
  normalize_fen "rnbqkbnr/pppppppp/8/8/4P3/8/PPPP1PPP/RNBQKBNR b KQkq e9 0 1" =
  Some "rnbqkbnr/pppppppp/8/8/4P3/8/PPPP1PPP/RNBQKBNR b KQkq -".
Proof.
  refine (proj1 (proj2 (proj2 normalize_fen_key))
    "rnbqkbnr/pppppppp/8/8/4P3/8/PPPP1PPP/RNBQKBNR" "b" "KQkq" "e9"
    "0" "1" "37" "52" _ _ _ _ _ _ _ _); split; reflexivity.
Defined.

Example normalize_fen_keeps_ep :
  normalize_fen "  8/8/8/3pP3/8/8/8/K6k w - d6 0 40  " =
  Some "8/8/8/3pP3/8/8/8/K6k w - d6".
Proof. reflexivity. Qed.

Example normalize_fen_too_short : normalize_fen "8/8/8/8 w -" = None.
Proof. reflexivity. Qed.

End FenFacts.

Module BookFacts.
Import Book.
Local Open Scope Z_scope.

(** *** The order of the sort keys *)

Lemma string_compare_trans (a : string) : ∀ b c,
  String.compare a b ≠ Gt → String.compare b c ≠ Gt → String.compare a c ≠ Gt.
Proof.
  induction a as [| x a IH]; intros [| y b] [| z c]; cbn; try done.
  unfold Ascii.compare.
  destruct (N.compare_spec (N_of_ascii x) (N_of_ascii y)),
           (N.compare_spec (N_of_ascii y) (N_of_ascii z)),
           (N.compare_spec (N_of_ascii x) (N_of_ascii z));
    try done; try lia.
  apply IH.
Qed.

Lemma string_leb_trans (a b c : string) :
  String.leb a b = true → String.leb b c = true → String.leb a c = true.
Proof.
  unfold String.leb. intros Hab Hbc.
  pose proof (string_compare_trans a b c) as H.
  destruct (String.compare a b), (String.compare b c), (String.compare a c);
    try done; exfalso; apply H; done.
Qed.

Lemma string_leb_refl (a : string) : String.leb a a = true.
Proof. by destruct (String.leb_total a a). Qed.

Lemma key_le_spec (ua ub : string) (wa wb : Z) (ia ib : nat) (la lb : string) :
  key_le (ua, (wa, ia, la)) (ub, (wb, ib, lb)) ↔
  wb < wa ∨ (wb = wa ∧ ((ia < ib)%nat ∨ (ia = ib ∧ String.leb ua ub = true))).
Proof.
  unfold key_le, key_leb.
  rewrite orb_true_iff, andb_true_iff, orb_true_iff, andb_true_iff.
  rewrite Z.ltb_lt, Z.eqb_eq, Nat.ltb_lt, Nat.eqb_eq. split.
  - intros [? | [? [? | [? ?]]]]; [left; lia | right; split; [lia | auto] ..].
  - intros [? | [? [? | [? ?]]]]; [left; lia | right; split; [lia | auto] ..].
Qed.

#[local] Instance key_le_total : Total key_le.
Proof.
  intros [ua [[wa ia] la]] [ub [[wb ib] lb]]. rewrite !key_le_spec.
  destruct (Z.lt_trichotomy wa wb) as [? | [? | ?]];
    [right; left; lia | | left; left; lia].
  destruct (Nat.lt_trichotomy ia ib) as [? | [? | ?]];
    [left; right; split; [lia | left; lia] | | right; right; split; [lia | left; lia]].
  destruct (String.leb_total ua ub);
    [left | right]; right; (split; [lia |]); right; (split; [lia | done]).
Qed.

#[local] Instance key_le_trans : Transitive key_le.
Proof.
  intros [ua [[wa ia] la]] [ub [[wb ib] lb]] [uc [[wc ic] lc]].
  rewrite !key_le_spec.
  intros [? | [? [? | [? Hab]]]] [? | [? [? | [? Hbc]]]];
    try (left; lia); try (right; split; [lia |]; left; lia).
  right. split; [lia |]. right. split; [lia |]. by eapply string_leb_trans.
Qed.

(** The scenarios of the specification. *)
Example best_move_prefers_heavier :
  _find_book_move BestMove
    [(Reader (Some [Entry "e2e4" 10]), "A"); (Reader (Some [Entry "d2d4" 20]), "B")]
  = Some ("d2d4", "B").
Proof. vm_compute. reflexivity. Qed.

Example best_move_tie_prefers_earlier_book :
  _find_book_move BestMove
    [(Reader (Some [Entry "g1f3" 15]), "A"); (Reader (Some [Entry "c2c4" 15]), "B")]
  = Some ("g1f3", "A").
Proof. vm_compute. reflexivity. Qed.

Example best_move_tie_same_book_by_uci :
  _find_book_move BestMove
    [(NoReader, "W"); (Reader None, "X");
     (Reader (Some [Entry "g1f3" 15; Entry "c2c4" 15; Entry "c2c4" 7]), "A")]
  = Some ("c2c4", "A").
Proof. vm_compute. reflexivity. Qed.

(** *** What the loops collect *)

Lemma list_entries_from_spec readers : ∀ k idx label es,
  (idx, label, es) ∈ list_entries_from k readers ↔
  ∃ j, idx = (k + j)%nat ∧
       readers !! j = Some (Reader (Some es), label) ∧ es ≠ [].
Proof.
  induction readers as [| [rdr lbl] rest IH]; intros k idx label es.
  - cbn. rewrite elem_of_nil. split; [done |]. by intros (j & _ & ? & _).
  - assert (Hrest : (idx, label, es) ∈ list_entries_from (S k) rest ↔
      ∃ j, idx = (k + S j)%nat ∧
           ((rdr, lbl) :: rest) !! S j = Some (Reader (Some es), label) ∧ es ≠ []).
    { rewrite IH. split; intros (j & -> & ? & ?); exists j;
        (split; [lia | done]). }
    assert (Hskip : (∀ es', (rdr, lbl) = (Reader (Some es'), label) → es' = es → es = []) →
      ((idx, label, es) ∈ list_entries_from (S k) rest ↔
       ∃ j, idx = (k + j)%nat ∧
            ((rdr, lbl) :: rest) !! j = Some (Reader (Some es), label) ∧ es ≠ [])).
    { intros Hno. rewrite Hrest. split.
      - intros (j & ? & ? & ?). by exists (S j).
      - intros ([| j] & ? & Hj & Hne); [| by exists j].
        cbn in Hj. exfalso. apply Hne. eapply Hno; [| done]. congruence. }
    destruct rdr as [| [[| e0 es0] |]]; cbn [list_entries_from default from_option id].
    + apply Hskip. intros es' ?. done.
    + apply Hskip. intros es' ? <-. congruence.
    + rewrite elem_of_cons, Hrest. split.
      * intros [? | (j & ? & ? & ?)]; [| by exists (S j)].
        simplify_eq. exists 0%nat. split; [lia |]. done.
      * intros ([| j] & ? & Hj & Hne); [left | right; by exists j].
        cbn in Hj. simplify_eq. f_equal. f_equal. lia.
    + apply Hskip. intros es' ?. done.
Qed.

Lemma offers_spec readers idx label u w :
  (idx, label, Entry u w) ∈ offers (list_entries readers) ↔
  offered readers idx label u w.
Proof.
  unfold offers, offered, list_entries. rewrite list_elem_of_join. split.
  - intros (l & Hin & Hl). apply list_elem_of_fmap in Hl as ([[i lb] es] & -> & Hb).
    apply list_elem_of_fmap in Hin as (e & ? & He). simplify_eq.
    apply list_entries_from_spec in Hb as (j & -> & Hj & _). by exists es.
  - intros (es & Hj & He).
    exists ((λ e, (idx, label, e)) <$> es). split.
    + apply list_elem_of_fmap. by exists (Entry u w).
    + apply list_elem_of_fmap. exists (idx, label, es). split; [done |].
      apply list_entries_from_spec. exists idx. split; [done |]. split; [done |].
      intros ->. by apply elem_of_nil in He.
Qed.

Lemma collect_flat readers :
  collect readers = foldl step ∅ (offers (list_entries readers)).
Proof.
  unfold collect. generalize (∅ : gmap string candidate).
  induction (list_entries readers) as [| [[idx label] es] books IH]; intros d.
  - done.
  - cbn [foldl]. rewrite IH. unfold offers. cbn [fmap list_fmap mjoin list_join].
    rewrite foldl_app. f_equal. by rewrite foldl_fmap.
Qed.

(** After any sequence of offers, each move is mapped to one of its
    offers, and that offer is the heaviest, from the earliest book among
    the heaviest. *)
Lemma collect_invariant (os : list (nat * string * entry)) :
  (∀ u w idx label,
     foldl step ∅ os !! u = Some (w, idx, label) →
     (idx, label, Entry u w) ∈ os) ∧
  (∀ idx label u w,
     (idx, label, Entry u w) ∈ os →
     ∃ w' idx' label',
       foldl step ∅ os !! u = Some (w', idx', label') ∧
       (w < w' ∨ (w = w' ∧ (idx' ≤ idx)%nat))).
Proof.
  induction os as [| [[i l] [u0 w0]] os [IHb IHc]] using rev_ind.
  - split; [intros ???? H; cbn [foldl] in H; by rewrite lookup_empty in H |].
    intros ???? H. by apply elem_of_nil in H.
  - rewrite foldl_snoc. set (d := foldl step ∅ os) in *.
    assert (Hins :
      (∀ c, d !! u0 = Some c →
            c.1.1 < w0 ∨ (c.1.1 = w0 ∧ (i ≤ c.1.2)%nat)) →
      (∀ u w idx label,
         <[u0 := (w0, i, l)]> d !! u = Some (w, idx, label) →
         (idx, label, Entry u w) ∈ os ++ [(i, l, Entry u0 w0)]) ∧
      (∀ idx label u w,
         (idx, label, Entry u w) ∈ os ++ [(i, l, Entry u0 w0)] →
         ∃ w' idx' label',
           <[u0 := (w0, i, l)]> d !! u = Some (w', idx', label') ∧
           (w < w' ∨ (w = w' ∧ (idx' ≤ idx)%nat)))).
    { intros Hold. split.
      - intros u w idx label. rewrite elem_of_app, list_elem_of_singleton.
        destruct (decide (u0 = u)) as [<- | Hne].
        + rewrite lookup_insert_eq. intros ?. simplify_eq. by right.
        + rewrite lookup_insert_ne by done. intros ?. left. by apply IHb.
      - intros idx label u w. rewrite elem_of_app, list_elem_of_singleton.
        intros [Hin | ?].
        + destruct (IHc _ _ _ _ Hin) as (w' & idx' & label' & Hd & Hle).
          destruct (decide (u0 = u)) as [<- | Hne].
          * rewrite lookup_insert_eq. eexists _, _, _. split; [done |].
            specialize (Hold _ Hd). cbn in Hold. lia.
          * rewrite lookup_insert_ne by done. by eexists _, _, _.
        + simplify_eq. rewrite lookup_insert_eq. eexists _, _, _.
          split; [done |]. lia. }
    cbn [step]. unfold consider. cbn [move weight].
    destruct (d !! u0) as [[[cw ci] cl] |] eqn:Hd.
    + destruct ((cw <? w0) || ((w0 =? cw) && (i <? ci)%nat)) eqn:Hb.
      * apply Hins. intros c ?. simplify_eq. cbn.
        apply orb_true_iff in Hb as [Hb | Hb]; [apply Z.ltb_lt in Hb; lia |].
        apply andb_true_iff in Hb as [H1 H2].
        apply Z.eqb_eq in H1. apply Nat.ltb_lt in H2. lia.
      * apply orb_false_iff in Hb as [H1 H2]. apply Z.ltb_ge in H1.
        assert (H3 : w0 = cw → (ci ≤ i)%nat).
        { intros ->. rewrite Z.eqb_refl in H2. cbn in H2.
          apply Nat.ltb_ge in H2. lia. }
        split.
        -- intros u w idx label ?. apply elem_of_app. left. by apply IHb.
        -- intros idx label u w. rewrite elem_of_app, list_elem_of_singleton.
           intros [Hin | ?]; [exact (IHc _ _ _ _ Hin) |].
           simplify_eq. eexists _, _, _. split; [done |].
           destruct (decide (w0 = cw)) as [E | ?];
             [right; split; [done | by apply H3] | left; lia].
    + apply Hins. intros c ?. congruence.
Qed.

(** *** The chosen move *)

Lemma find_book_move_best_move readers :
  _find_book_move BestMove readers = best_move readers.
Proof. by destruct readers. Qed.

Lemma best_move_none readers :
  best_move readers = None ↔ collect readers = ∅.
Proof.
  unfold best_move.
  pose proof (merge_sort_Permutation key_le (map_to_list (collect readers))) as HP.
  destruct (merge_sort key_le (map_to_list (collect readers)))
    as [| [u [[w i] l]] rest] eqn:E.
  - split; [intros _ | done]. apply map_to_list_empty_iff.
    by apply Permutation_nil_l in HP.
  - split; [done |]. intros Hd. rewrite Hd, map_to_list_empty in HP.
    by apply Permutation_nil_r in HP.
Qed.

Lemma best_move_head readers u label :
  best_move readers = Some (u, label) →
  ∃ w idx, collect readers !! u = Some (w, idx, label) ∧
           ∀ v c, collect readers !! v = Some c →
                  key_le (u, (w, idx, label)) (v, c).
Proof.
  unfold best_move.
  pose proof (merge_sort_Permutation key_le (map_to_list (collect readers))) as HP.
  pose proof (StronglySorted_merge_sort key_le (map_to_list (collect readers))) as HS.
  destruct (merge_sort key_le (map_to_list (collect readers)))
    as [| [u' [[w i] l]] rest] eqn:E; [done |].
  intros ?. simplify_eq. exists w, i. split.
  - apply elem_of_map_to_list. rewrite <- HP. apply elem_of_cons. by left.
  - intros v c Hv. apply elem_of_map_to_list in Hv. rewrite <- HP in Hv.
    apply StronglySorted_inv in HS as [_ HF].
    apply elem_of_cons in Hv as [Heq | Hv].
    + simplify_eq.
      by destruct (total key_le (u, (w, i, label)) (u, (w, i, label))).
    + rewrite Forall_forall in HF. by apply HF.
Qed.

(** The result of the best-move policy, characterised by the offers. *)
Lemma best_move_spec readers :
  (_find_book_move BestMove readers = None ↔
   ∀ idx label u w, ¬ offered readers idx label u w) ∧
  (∀ u label,
     _find_book_move BestMove readers = Some (u, label) →
     ∃ w idx,
       offered readers idx label u w ∧
       (∀ idx' label' w',
          offered readers idx' label' u w' →
          w' ≤ w ∧ (w' = w → (idx ≤ idx')%nat)) ∧
       (∀ idx' label' v w',
          offered readers idx' label' v w' →
          w' < w ∨
          (w' = w ∧ ((idx < idx')%nat ∨
                     (idx = idx' ∧ String.leb u v = true))))).
Proof.
  rewrite find_book_move_best_move.
  destruct (collect_invariant (offers (list_entries readers))) as [Hb Hc].
  rewrite <- collect_flat in Hb, Hc.
  split.
  - rewrite best_move_none. split.
    + intros Hd idx label u w Ho. apply offers_spec, Hc in Ho as (? & ? & ? & Ho & _).
      by rewrite Hd, lookup_empty in Ho.
    + intros Hno. apply map_empty. intros u.
      destruct (collect readers !! u) as [[[w i] l] |] eqn:E; [| done].
      apply Hb, offers_spec in E. by apply Hno in E.
  - intros u label Hbest.
    apply best_move_head in Hbest as (w & idx & Hu & Hmin).
    exists w, idx. split; [by apply offers_spec, Hb |].
    assert (Hall : ∀ idx' label' v w',
      offered readers idx' label' v w' →
      w' < w ∨ (w' = w ∧ ((idx < idx')%nat ∨
                          (idx = idx' ∧ String.leb u v = true)))).
    { intros idx' label' v w' Ho.
      apply offers_spec, Hc in Ho as (wv & iv & lv & Hv & Hle).
      specialize (Hmin _ _ Hv). apply key_le_spec in Hmin.
      destruct Hmin as [? | [? [? | [? ?]]]]; [lia | ..].
      - destruct (decide (w' = w)); [right; split; [done |]; left; lia | left; lia].
      - destruct (decide (w' = w)); [right; split; [done |] | left; lia].
        destruct (decide (idx = idx')); [right; done | left; lia]. }
    split; [| exact Hall].
    intros idx' label' w' Ho. specialize (Hall _ _ _ _ Ho). lia.
Qed.

(** The offers of a two-book list with one entry each. *)
Lemma offered_two_books x wx lx y wy ly idx label u w :
  offered [(Reader (Some [Entry x wx]), lx); (Reader (Some [Entry y wy]), ly)]
          idx label u w ↔
  (idx = 0%nat ∧ label = lx ∧ u = x ∧ w = wx) ∨
  (idx = 1%nat ∧ label = ly ∧ u = y ∧ w = wy).
Proof.
  unfold offered. split.
  - intros (es & Hl & He). destruct idx as [| [| idx]]; cbn in Hl; simplify_eq.
    + apply list_elem_of_singleton in He. simplify_eq. by left.
    + apply list_elem_of_singleton in He. simplify_eq. by right.
  - intros [(-> & -> & -> & ->) | (-> & -> & -> & ->)];
      eexists; (split; [reflexivity |]); by apply list_elem_of_singleton.
Qed.

(** C7.  Under the best-move policy [_find_book_move] returns nothing
    exactly when no consulted book offers a move; otherwise it returns a
    move [u] and the label of a book [idx] such that: book [idx] offers [u]
    at weight [w]; [w] is the greatest weight at which any book offers [u],
    and [idx] is the earliest book offering it at that weight; and every
    move [v] offered anywhere at weight [w'] is lighter than [w], or ties
    with it and comes from a later book, or from the same book with a UCI
    encoding not before that of [u].  In particular, book A offering X at
    10 and book B offering Y at 20 give Y, and a tie at 15 between X from
    book A and Y from book B gives X. *)
Theorem find_book_move_best readers :
  ((_find_book_move BestMove readers = None ↔
    ∀ idx label u w, ¬ offered readers idx label u w) ∧
   (∀ u label,
      _find_book_move BestMove readers = Some (u, label) →
      ∃ w idx,
        offered readers idx label u w ∧
        (∀ idx' label' w',
           offered readers idx' label' u w' →
           w' ≤ w ∧ (w' = w → (idx ≤ idx')%nat)) ∧
        (∀ idx' label' v w',
           offered readers idx' label' v w' →
           w' < w ∨
           (w' = w ∧ ((idx < idx')%nat ∨
                      (idx = idx' ∧ String.leb u v = true)))))) ∧
  (∀ x y, _find_book_move BestMove
            [(Reader (Some [Entry x 10]), "A"); (Reader (Some [Entry y 20]), "B")]
          = Some (y, "B")) ∧
  (∀ x y, _find_book_move BestMove
            [(Reader (Some [Entry x 15]), "A"); (Reader (Some [Entry y 15]), "B")]
          = Some (x, "A")).
Proof.
  split; [apply best_move_spec |]. split; intros x y.
  - match goal with |- _find_book_move _ ?rs = _ =>
      destruct (best_move_spec rs) as [Hnone Hsome];
      destruct (_find_book_move BestMove rs) as [[u label] |] eqn:E
    end.
    + destruct (Hsome u label eq_refl) as (w & idx & Ho & _ & Hall).
      apply offered_two_books in Ho as [(-> & -> & -> & ->) | (-> & -> & -> & ->)];
        [| done].
      specialize (Hall 1%nat "B" y 20).
      destruct Hall as [? | [? _]]; [| lia | lia].
      apply offered_two_books. by right.
    + exfalso. apply (proj1 Hnone eq_refl 0%nat "A" x 10).
      apply offered_two_books. by left.
  - match goal with |- _find_book_move _ ?rs = _ =>
      destruct (best_move_spec rs) as [Hnone Hsome];
      destruct (_find_book_move BestMove rs) as [[u label] |] eqn:E
    end.
    + destruct (Hsome u label eq_refl) as (w & idx & Ho & _ & Hall).
      apply offered_two_books in Ho as [(-> & -> & -> & ->) | (-> & -> & -> & ->)];
        [done |].
      specialize (Hall 0%nat "A" x 15).
      destruct Hall as [? | [_ [? | [? _]]]]; [| lia | lia | lia].
      apply offered_two_books. by left.
    + exfalso. apply (proj1 Hnone eq_refl 0%nat "A" x 15).
      apply offered_two_books. by left.
Qed.

Lemma find_book_move_best_witness :
  ∃ w idx,
    offered [(Reader (Some [Entry "e2e4" 10; Entry "d2d4" 12]), "A");
             (Reader (Some [Entry "d2d4" 20; Entry "c2c4" 20]), "B")]
            idx "B" "c2c4" w.
Proof.
  destruct (proj2 (proj1 (find_book_move_best
    [(Reader (Some [Entry "e2e4" 10; Entry "d2d4" 12]), "A");
     (Reader (Some [Entry "d2d4" 20; Entry "c2c4" 20]), "B")]))
    "c2c4" "B") as (w & idx & Ho & _).
  - vm_compute. reflexivity.
  - by exists w, idx.
Defined.

End BookFacts.

Module AdmissionFacts.
Import Config Admission AdmissionScenario.
Local Open Scope Z_scope.

Lemma option_string_eqb_spec (a : option string) (b : string) :
  option_string_eqb a b = true ↔ a = Some b.
Proof.
  destruct a as [s |]; cbn; [| done].
  rewrite String.eqb_eq. split; congruence.
Qed.

Lemma reported_status_open (ch : challenge) :
  (reported_status ch = "created" ∨ reported_status ch = "pending") ↔
  negb (String.eqb (PyStr.lower (or_empty (status ch))) "")
  && negb (String.eqb (PyStr.lower (or_empty (status ch))) "created"
           || String.eqb (PyStr.lower (or_empty (status ch))) "pending") = false.
Proof.
  unfold reported_status.
  destruct (PyStr.lower (or_empty (status ch))) as [| c s] eqn:E.
  - cbn. split; [done | by left].
  - change (String.eqb (String c s) "") with false. cbn [negb andb].
    rewrite negb_false_iff, orb_true_iff, !String.eqb_eq. done.
Qed.

(** C8.  [acceptable_challenge] returns [True] exactly when: the variant
    is standard or the variant check is disabled; the base time is at least
    [ACCEPT_MIN_BASE_SECONDS]; the challenge is rated or non-rated
    acceptance is enabled; the challenger is a bot or humans are allowed;
    the challenge targets this bot and was not issued by it; and its status
    is still open (created or pending; a challenge that reports no status
    reads as created).  Otherwise it returns [False]. *)
Theorem acceptable_challenge_iff (cfg : Config.t) (ch : challenge) :
  (acceptable_challenge cfg ch = true ↔
     (ACCEPT_VARIANT_STANDARD cfg = false ∨ variant_key ch = Some "standard") ∧
     ACCEPT_MIN_BASE_SECONDS cfg ≤ default 0 (time_limit ch) ∧
     (rated ch = true ∨ ACCEPT_NONRATED cfg = true) ∧
     (challenger_title ch = Some "BOT" ∨ ALLOW_HUMANS cfg = true) ∧
     (PyStr.lower (or_empty (dest_id ch)) = MY_BOT_ID cfg ∧
      PyStr.lower (or_empty (challenger_id ch)) ≠ MY_BOT_ID cfg) ∧
     (reported_status ch = "created" ∨ reported_status ch = "pending")) ∧
  (acceptable_challenge cfg ch = false ↔
     (ACCEPT_VARIANT_STANDARD cfg = true ∧ variant_key ch ≠ Some "standard") ∨
     default 0 (time_limit ch) < ACCEPT_MIN_BASE_SECONDS cfg ∨
     (rated ch = false ∧ ACCEPT_NONRATED cfg = false) ∨
     (challenger_title ch ≠ Some "BOT" ∧ ALLOW_HUMANS cfg = false) ∨
     PyStr.lower (or_empty (dest_id ch)) ≠ MY_BOT_ID cfg ∨
     PyStr.lower (or_empty (challenger_id ch)) = MY_BOT_ID cfg ∨
     ¬ (reported_status ch = "created" ∨ reported_status ch = "pending")).
Proof.
  rewrite reported_status_open. unfold acceptable_challenge.
  rewrite <- (option_string_eqb_spec (variant_key ch)).
  rewrite <- (option_string_eqb_spec (challenger_title ch)).
  rewrite <- (String.eqb_eq (PyStr.lower (or_empty (dest_id ch)))).
  rewrite <- (String.eqb_eq (PyStr.lower (or_empty (challenger_id ch)))).
  rewrite <- Z.ltb_ge, <- Z.ltb_lt.
  destruct (ACCEPT_VARIANT_STANDARD cfg), (ACCEPT_NONRATED cfg), (ALLOW_HUMANS cfg),
    (option_string_eqb (variant_key ch) "standard"), (rated ch),
    (default 0 (time_limit ch) <? ACCEPT_MIN_BASE_SECONDS cfg),
    (option_string_eqb (challenger_title ch) "BOT"),
    (String.eqb (PyStr.lower (or_empty (challenger_id ch))) (MY_BOT_ID cfg)),
    (String.eqb (PyStr.lower (or_empty (dest_id ch))) (MY_BOT_ID cfg)),
    (negb (String.eqb (PyStr.lower (or_empty (status ch))) "")
     && negb (String.eqb (PyStr.lower (or_empty (status ch))) "created"
              || String.eqb (PyStr.lower (or_empty (status ch))) "pending"));
    cbn; intuition congruence.
Qed.

(** The end-to-end scenario: a challenge meeting every check is accepted,
    one below the minimum base time is declined. *)
Example accepts_rapid_from_bot :
  acceptable_challenge (Config.defaults "icbmbot") rapid_from_bot = true.
Proof. reflexivity. Qed.

Example declines_short_base_time :
  acceptable_challenge (Config.defaults "icbmbot") bullet_from_bot = false.
Proof. reflexivity. Qed.

End AdmissionFacts.

Module PipelineFacts.
Import Config TimeManagement Pipeline PipelineScenario.
Local Open Scope Q_scope.


Lemma ultra_panic_disarmed (ms : Z) :
  (2000 < ms)%Z → Qle_bool (fmax 0.0 (inject_Z ms / 1000.0)) 2.0 = false.
Proof.
  intros H. apply TimeManagementFacts.Qle_bool_false.
  assert (Hq : 2000 < inject_Z ms) by (unfold Qlt; cbn; lia).
  pose proof (TimeManagementFacts.fmax_lower_r 0.0 (inject_Z ms / 1000.0)) as Hm.
  revert Hm. unfold Qdiv. change (/ 1000.0) with (10 # 10000).
  generalize (fmax 0.0 (inject_Z ms * (10 # 10000))). intros. lra.
Qed.




(** With more time on the clock the later steps do run. *)
Example hard_panic_at_five_seconds :
  safe_make_move (Config.defaults "icbmbot") engine_up tt (Some 5000%Z) (Some 0%Z) None
  = ((true, tt),
     [EnginePlay (Time 0.06); SubmitMove "panic" "g1f3"; BoardPush "g1f3"]).
Proof. vm_compute. reflexivity. Qed.

Example normal_search_at_one_minute :
  (safe_make_move (Config.defaults "icbmbot") engine_up tt (Some 60000%Z) (Some 0%Z) None).1
  = (true, tt) ∧
  later_step <$>
    (safe_make_move (Config.defaults "icbmbot") engine_up tt (Some 60000%Z) (Some 0%Z) None).2
  = [true; true; true; true; true; false].
Proof. split; vm_compute; reflexivity. Qed.

End PipelineFacts.

Module TimeBudgetFacts.
Import TimeManagement.
Local Open Scope Q_scope.

Ltac clamp_cases :=
  repeat match goal with
  | |- context [fmax ?a ?b] =>
      let E := fresh "E" in
      destruct (TimeManagementFacts.fmax_cases a b) as [[? E] | [? E]];
      rewrite E in *; clear E
  | |- context [fmin ?a ?b] =>
      let E := fresh "E" in
      destruct (TimeManagementFacts.fmin_cases a b) as [[? E] | [? E]];
      rewrite E in *; clear E
  | _ : context [fmax ?a ?b] |- _ =>
      let E := fresh "E" in
      destruct (TimeManagementFacts.fmax_cases a b) as [[? E] | [? E]];
      rewrite E in *; clear E
  | _ : context [fmin ?a ?b] |- _ =>
      let E := fresh "E" in
      destruct (TimeManagementFacts.fmin_cases a b) as [[? E] | [? E]];
      rewrite E in *; clear E
  end.

(** The three practical clamps, as one function of the nominal budget. *)
Lemma clamps_monotone (x y s : Q) :
  x <= y →
  fmax (fmin (fmin x s) 60.0) 2.0 <= fmax (fmin (fmin y s) 60.0) 2.0.
Proof. intros H. clamp_cases; lra. Qed.

Lemma estimate_RM_cases (bm : Z) :
  estimate_RM bm = 35 ∨ estimate_RM bm = 25 ∨ estimate_RM bm = 15.
Proof.
  unfold estimate_RM.
  destruct (15 <=? bm)%Z; [auto |]. destruct (5 <=? bm)%Z; auto.
Qed.

Lemma phase_scale_cases (P : Z) :
  phase_scale P = 1.5 ∨ phase_scale P = 1.2 ∨ phase_scale P = 1.0.
Proof.
  unfold phase_scale.
  destruct (P <? 20)%Z; [auto |]. destruct (P <? 60)%Z; auto.
Qed.

Lemma phase_scale_antitone (P1 P2 : Z) :
  (P1 ≤ P2)%Z → phase_scale P2 <= phase_scale P1.
Proof.
  intros H. unfold phase_scale.
  destruct (Z.ltb_spec P1 20), (Z.ltb_spec P2 20),
           (Z.ltb_spec P1 60), (Z.ltb_spec P2 60); try lia; lra.
Qed.

(** The nominal per-move share of the pool is not negative once the bank
    is covered. *)
Lemma share_nonneg (T I : Q) (bm : Z) :
  safe_bank I <= T → 0 <= I →
  0 <= ((T - safe_bank I) + 0.5 * I * estimate_RM bm) / estimate_RM bm.
Proof.
  intros HT HI. unfold Qdiv.
  destruct (estimate_RM_cases bm) as [-> | [-> | ->]];
    [change (/ 35) with (1 # 35) | change (/ 25) with (1 # 25)
     | change (/ 15) with (1 # 15)]; lra.
Qed.

Lemma clamped_budget_ply_antitone T I P1 P2 chk frc bm :
  safe_bank I <= T → 0 <= I → (P1 ≤ P2)%Z →
  clamped_budget T I P2 chk frc bm <= clamped_budget T I P1 chk frc bm.
Proof.
  intros HT HI HP. unfold clamped_budget. cbv zeta.
  apply clamps_monotone.
  pose proof (share_nonneg T I bm HT HI) as Hs.
  pose proof (phase_scale_antitone P1 P2 HP) as Hp.
  revert Hs Hp.
  generalize (((T - safe_bank I) + 0.5 * I * estimate_RM bm) / estimate_RM bm).
  generalize (phase_scale P1) (phase_scale P2). intros a b q Hs Hp.
  destruct chk, frc; nra.
Qed.

Lemma clamped_budget_nudges T I P bm :
  safe_bank I <= T → 0 <= I →
  (∀ chk, clamped_budget T I P chk true bm <= clamped_budget T I P chk false bm) ∧
  (∀ frc, clamped_budget T I P false frc bm <= clamped_budget T I P true frc bm).
Proof.
  intros HT HI.
  pose proof (share_nonneg T I bm HT HI) as Hs.
  split; intros b; unfold clamped_budget; cbv zeta; apply clamps_monotone;
    revert Hs;
    generalize (((T - safe_bank I) + 0.5 * I * estimate_RM bm) / estimate_RM bm);
    intros q Hs; destruct b;
    destruct (phase_scale_cases P) as [-> | [-> | ->]]; nra.
Qed.

(** The time manager never budgets more time for a later ply: with the
    other inputs and the jitter draw fixed, the budget at ply [p2] is at
    most the budget at any earlier ply [p1]. *)
Theorem movetime_ply_antitone r i p1 p2 chk frc bm j :
  0 <= j → (p1 ≤ p2)%Z →
  compute_movetime r i p2 chk frc bm j <= compute_movetime r i p1 chk frc bm j.
Proof.
  intros Hj Hp. unfold compute_movetime. cbv zeta.
  destruct (Qle_bool (fmax 0.0 r) (safe_bank (fmax 0.0 i))) eqn:E; [lra |].
  apply TimeManagementFacts.Qle_bool_false in E.
  pose proof (TimeManagementFacts.fmax_zero_nonneg i) as Hi.
  assert (Hb : clamped_budget (fmax 0.0 r) (fmax 0.0 i) (Z.max 0 p2) chk frc bm
               <= clamped_budget (fmax 0.0 r) (fmax 0.0 i) (Z.max 0 p1) chk frc bm)
    by (apply clamped_budget_ply_antitone; [lra | lra | lia]).
  nra.
Qed.

Lemma movetime_ply_antitone_witness :
  compute_movetime 900 10 65 false false 15 1 <=
  compute_movetime 900 10 5 false false 15 1.
Proof.
  apply (movetime_ply_antitone 900 10 5 65 false false 15 1).
  - vm_compute; congruence.
  - lia.
Defined.

(** The tactical nudges point the way the code says: a forced move never
    gets more time than an unforced one, and a position in check never
    gets less time than one out of check. *)
Theorem movetime_nudges r i p bm j :
  0 <= j →
  (∀ chk, compute_movetime r i p chk true bm j <=
          compute_movetime r i p chk false bm j) ∧
  (∀ frc, compute_movetime r i p false frc bm j <=
          compute_movetime r i p true frc bm j).
Proof.
  intros Hj. unfold compute_movetime. cbv zeta.
  destruct (Qle_bool (fmax 0.0 r) (safe_bank (fmax 0.0 i))) eqn:E;
    [split; intros; lra |].
  apply TimeManagementFacts.Qle_bool_false in E.
  pose proof (TimeManagementFacts.fmax_zero_nonneg i) as Hi.
  destruct (clamped_budget_nudges (fmax 0.0 r) (fmax 0.0 i) (Z.max 0 p) bm)
    as [Hf Hc]; [lra | lra |].
  split; [intros chk; specialize (Hf chk) | intros frc; specialize (Hc frc)]; nra.
Qed.

Lemma movetime_nudges_witness :
  compute_movetime 600 5 30 true true 10 1 <=
  compute_movetime 600 5 30 true false 10 1.
Proof.
  refine (proj1 (movetime_nudges 600 5 30 10 1 _) true).
  vm_compute; congruence.
Defined.

(** In normal play the budget stays on the clock.  The bank the code
    stores is the rounded sum [3.0 + 1.0 * I], a value of at least 3 and at
    least the increment; whenever the code's test finds the remaining time
    above that stored bank, the returned move time is at most the
    remaining time, and at most 69 s (the 60 s cap times the largest
    jitter). *)
Theorem movetime_within_clock bank r i p chk frc bm j :
  3 <= bank → fmax 0.0 i <= bank → bank < r → 0.85 <= j → j <= 1.15 →
  compute_movetime_at bank r i p chk frc bm j <= r ∧
  compute_movetime_at bank r i p chk frc bm j <= 69.
Proof.
  intros Hb3 Hbi Hr Hlo Hhi.
  assert (ET : fmax 0.0 r = r).
  { destruct (TimeManagementFacts.fmax_cases 0.0 r) as [[? E] | [? E]];
      rewrite E; [lra | reflexivity]. }
  assert (HT : bank < fmax 0.0 r) by (rewrite ET; exact Hr).
  rewrite (TimeManagementFacts.compute_movetime_at_normal _ _ i p chk frc bm j HT).
  rewrite ET. clear HT ET.
  pose proof (TimeManagementFacts.fmax_zero_nonneg i) as Hi.
  revert Hbi Hi. generalize (fmax 0.0 i). intros I Hbi Hi.
  assert (Hb : clamped_budget_at bank r I (Z.max 0 p) chk frc bm <= r / 1.15 ∧
               clamped_budget_at bank r I (Z.max 0 p) chk frc bm <= 60 ∧
               0 <= clamped_budget_at bank r I (Z.max 0 p) chk frc bm).
  { unfold clamped_budget_at. cbv zeta. unfold Qdiv.
    change (/ 1.15) with (100 # 115).
    destruct (estimate_RM_cases bm) as [-> | [-> | ->]];
      [change (/ 35) with (1 # 35) | change (/ 25) with (1 # 25)
       | change (/ 15) with (1 # 15)];
      destruct (phase_scale_cases (Z.max 0 p)) as [-> | [-> | ->]];
      destruct chk, frc; clamp_cases; repeat split; lra. }
  destruct Hb as (H1 & H2 & H3). revert H1 H2 H3.
  generalize (clamped_budget_at bank r I (Z.max 0 p) chk frc bm). intros b H1 H2 H3.
  unfold Qdiv in H1. change (/ 1.15) with (100 # 115) in H1.
  split; nra.
Qed.

Lemma movetime_within_clock_witness :
  compute_movetime_at 103 113 100 0 true false 15 1.15 <= 113.
Proof.
  refine (proj1 (movetime_within_clock 103 113 100 0 true false 15 1.15 _ _ _ _ _));
    vm_compute; congruence.
Defined.

End TimeBudgetFacts.

Module RegistryMoreFacts.
Import Config Registry RegistryLog Results.

Lemma state_eta (st : state) :
  {| clock := clock st; active_games := active_games st;
     pending_challenges := pending_challenges st;
     last_challenged := last_challenged st;
     rating_cache := rating_cache st;
     next_http_ok_at := next_http_ok_at st;
     created_challenges := created_challenges st |} = st.
Proof. by destruct st. Qed.

(** Releasing makes a game id claimable again, touches no other id, and
    does nothing for an id that is not registered. *)
Theorem release_then_claim gid st :
  (claim_game gid (remove_active gid st)).1 = true ∧
  gid ∈ active_games (claim_game gid (remove_active gid st)).2 ∧
  (∀ g, g ≠ gid →
        (g ∈ active_games (remove_active gid st) ↔ g ∈ active_games st)) ∧
  (gid ∉ active_games st → remove_active gid st = st).
Proof.
  assert (Hout : gid ∉ active_games (remove_active gid st))
    by (unfold remove_active, set_active; simpl; set_solver).
  split; [| split; [| split]].
  - by rewrite (RegistryFacts.claim_game_granted _ _ Hout).
  - rewrite (RegistryFacts.claim_game_granted _ _ Hout). simpl. set_solver.
  - intros g Hne. unfold remove_active, set_active. simpl. set_solver.
  - intros Hfree. unfold remove_active, set_active.
    replace (active_games st ∖ {[gid]}) with (active_games st) by set_solver.
    apply state_eta.
Qed.

(** In every schedule, the claims granted for [gid] are at most one more
    than the releases of [gid] (and at most as many when [gid] starts
    registered): a new session needs the previous one to have finished. *)
Lemma granted_bounded gid sched : ∀ st,
  (granted gid (run sched st).1
   ≤ releases gid sched + (if decide (gid ∈ active_games st) then 0 else 1))%nat.
Proof.
  induction sched as [| [g | g] rest IH]; intros st.
  - cbn. case_decide; lia.
  - rewrite RegistryFacts.run_claim. cbn [fst snd releases].
    rewrite RegistryFacts.granted_cons. specialize (IH (claim_game g st).2).
    destruct (decide (g = gid)) as [-> | Hne].
    + unfold claim_game in *. destruct (decide (gid ∈ active_games st)) as [Hin | Hout].
      * cbn [fst snd] in *. rewrite decide_False by congruence.
        rewrite decide_True in IH by done. lia.
      * cbn [fst snd set_active active_games] in *.
        rewrite decide_True by done.
        rewrite decide_True in IH by set_solver. lia.
    + rewrite decide_False by congruence.
      pose proof (RegistryFacts.claim_game_other gid g st Hne) as Hiff.
      destruct (decide (gid ∈ active_games st)),
               (decide (gid ∈ active_games (claim_game g st).2)); try tauto; lia.
  - cbn [run releases]. specialize (IH (remove_active g st)).
    destruct (decide (g = gid)) as [-> | Hne].
    + destruct (decide (gid ∈ active_games (remove_active gid st))),
               (decide (gid ∈ active_games st)); lia.
    + assert (Hiff : gid ∈ active_games (remove_active g st) ↔ gid ∈ active_games st)
        by (unfold remove_active, set_active; simpl; set_solver).
      destruct (decide (gid ∈ active_games (remove_active g st))),
               (decide (gid ∈ active_games st)); try tauto; lia.
Qed.

Theorem sessions_bounded_by_releases gid sched st :
  (gid ∉ active_games st →
     (granted gid (run sched st).1 ≤ releases gid sched + 1)%nat) ∧
  (gid ∈ active_games st →
     (granted gid (run sched st).1 ≤ releases gid sched)%nat).
Proof.
  pose proof (granted_bounded gid sched st) as H.
  split; intros Hg; [rewrite decide_False in H by done
                    | rewrite decide_True in H by done]; lia.
Qed.

Lemma sessions_bounded_by_releases_witness :
  (granted "g1"
     (run [Claim "g1"; Claim "g1"; Release "g1"; Claim "g1"; Claim "g1"] initial).1
   ≤ 1 + 1)%nat.
Proof.
  refine (proj1 (sessions_bounded_by_releases "g1"
    [Claim "g1"; Claim "g1"; Release "g1"; Claim "g1"; Claim "g1"] initial) _).
  simpl. set_solver.
Defined.

Lemma release_then_claim_witness :
  remove_active "g9" initial = initial.
Proof.
  apply (proj2 (proj2 (proj2 (release_then_claim "g9" initial)))).
  simpl. set_solver.
Defined.

End RegistryMoreFacts.

Module DispatchMoreFacts.
Import Config Registry.
Local Open Scope Q_scope.

(** A recorded pending challenge blocks [should_challenge] for every
    spelling of the opponent's name, at any later time and whatever the
    platform reports; [remove_pending] undoes [add_pending]. *)
Theorem pending_blocks_challenge cfg srv u u' d st :
  PyStr.lower u' = PyStr.lower u →
  (should_challenge cfg srv u' (sleep d (add_pending u st))).1 = false ∧
  pending_challenges (add_pending u st) !! PyStr.lower u' = Some (clock st) ∧
  pending_challenges (remove_pending u' (add_pending u st)) !! PyStr.lower u = None ∧
  (pending_challenges st !! PyStr.lower u = None →
   pending_challenges (remove_pending u' (add_pending u st)) = pending_challenges st).
Proof.
  intros Hl. split; [| split; [| split]].
  - unfold should_challenge. destruct (_ <=? _)%Z; [done |].
    rewrite decide_True; [done |].
    cbn [sleep add_pending set_pending pending_challenges]. rewrite Hl.
    rewrite lookup_insert_eq. by eexists.
  - cbn [add_pending set_pending pending_challenges]. rewrite Hl.
    apply lookup_insert_eq.
  - cbn [remove_pending add_pending set_pending pending_challenges]. rewrite Hl.
    apply lookup_delete_eq.
  - intros Hnone.
    cbn [remove_pending add_pending set_pending pending_challenges]. rewrite Hl.
    rewrite delete_insert_eq. by apply delete_id.
Qed.

Lemma pending_blocks_challenge_witness :
  (should_challenge (Config.defaults "icbmbot") DispatchScenario.strong_rivals
     "RIVAL" (sleep 5 (add_pending "Rival" initial))).1 = false.
Proof.
  refine (proj1 (pending_blocks_challenge (Config.defaults "icbmbot")
    DispatchScenario.strong_rivals "Rival" "RIVAL" 5 initial _)).
  reflexivity.
Defined.

(** A recorded attempt blocks [should_challenge] for the whole
    [RECHALLENGE_COOLDOWN] that follows it. *)
Theorem cooldown_blocks_challenge cfg srv u u' d st :
  PyStr.lower u' = PyStr.lower u →
  d < inject_Z (RECHALLENGE_COOLDOWN cfg) →
  (should_challenge cfg srv u' (sleep d (mark_challenged u st))).1 = false.
Proof.
  intros Hl Hd. unfold should_challenge.
  destruct (_ <=? _)%Z; [done |]. case_decide; [done |].
  cbn [sleep mark_challenged set_last last_challenged clock]. rewrite Hl.
  rewrite lookup_insert_eq.
  replace (Qle_bool (inject_Z (RECHALLENGE_COOLDOWN cfg)) (clock st + d - clock st))
    with false; [done |].
  symmetry. apply TimeManagementFacts.Qle_bool_false. lra.
Qed.

Lemma cooldown_blocks_challenge_witness :
  (should_challenge (Config.defaults "icbmbot") DispatchScenario.strong_rivals
     "rival" (sleep 899 (mark_challenged "Rival" initial))).1 = false.
Proof.
  apply (cooldown_blocks_challenge (Config.defaults "icbmbot")
           DispatchScenario.strong_rivals "Rival" "rival" 899 initial).
  - reflexivity.
  - vm_compute. reflexivity.
Defined.

(** [sweep_stale_pendings] keeps exactly the entries younger than
    [PENDING_TTL], with their timestamps, and touches nothing else. *)
Theorem sweep_keeps_fresh cfg st :
  (∀ u ts,
     pending_challenges (sweep_stale_pendings cfg st) !! u = Some ts ↔
     pending_challenges st !! u = Some ts ∧
     clock st - ts < inject_Z (PENDING_TTL cfg)) ∧
  active_games (sweep_stale_pendings cfg st) = active_games st ∧
  last_challenged (sweep_stale_pendings cfg st) = last_challenged st ∧
  clock (sweep_stale_pendings cfg st) = clock st ∧
  sweep_stale_pendings cfg (sweep_stale_pendings cfg st) = sweep_stale_pendings cfg st.
Proof.
  assert (Hl : ∀ u ts,
     pending_challenges (sweep_stale_pendings cfg st) !! u = Some ts ↔
     pending_challenges st !! u = Some ts ∧
     clock st - ts < inject_Z (PENDING_TTL cfg)).
  { intros u ts. cbn [sweep_stale_pendings set_pending pending_challenges].
    rewrite map_lookup_filter_Some. cbn [snd].
    rewrite negb_true_iff, TimeManagementFacts.Qle_bool_false. done. }
  split; [exact Hl |]. split; [done |]. split; [done |]. split; [done |].
  unfold sweep_stale_pendings, set_pending.
  cbn [clock active_games last_challenged rating_cache next_http_ok_at
       created_challenges pending_challenges].
  f_equal. apply map_eq. intros u. apply option_eq. intros ts.
  rewrite map_lookup_filter_Some. cbn [snd].
  rewrite !map_lookup_filter_Some. cbn [snd]. tauto.
Qed.

(** A fresh cache entry answers without asking the platform, and a fetch
    leaves an entry that answers for the next [RATING_CACHE_TTL] seconds. *)
Theorem rating_cache_hit cfg srv u p st :
  (∀ t r,
     rating_cache st !! (PyStr.lower u, p) = Some (t, r) →
     clock st - t < inject_Z (RATING_CACHE_TTL cfg) →
     get_rating_cached cfg srv u p st = (r, st)) ∧
  (∀ srv' d,
     0 <= d → d < inject_Z (RATING_CACHE_TTL cfg) →
     (∀ t r, rating_cache st !! (PyStr.lower u, p) = Some (t, r) →
             inject_Z (RATING_CACHE_TTL cfg) <= clock st - t) →
     get_rating_cached cfg srv' u p (sleep d (get_rating_cached cfg srv u p st).2)
     = (fetch_rating srv u p, sleep d (get_rating_cached cfg srv u p st).2)).
Proof.
  split.
  - intros t r Hc Hfresh. unfold get_rating_cached. rewrite Hc. cbn [fst snd].
    apply TimeManagementFacts.Qle_bool_false in Hfresh. by rewrite Hfresh.
  - intros srv' d Hd0 Hd Hstale.
    assert (E : get_rating_cached cfg srv u p st =
                (fetch_rating srv u p,
                 set_rating_cache
                   (λ m, <[(PyStr.lower u, p) := (clock st, fetch_rating srv u p)]> m) st)).
    { unfold get_rating_cached.
      destruct (rating_cache st !! (PyStr.lower u, p)) as [[t r] |] eqn:Hc; [| done].
      cbn [fst snd]. specialize (Hstale t r eq_refl).
      apply Qle_bool_iff in Hstale. by rewrite Hstale. }
    rewrite E. cbn [snd]. unfold get_rating_cached at 1.
    cbn [sleep set_rating_cache rating_cache clock]. rewrite lookup_insert_eq.
    cbn [fst snd].
    replace (Qle_bool (inject_Z (RATING_CACHE_TTL cfg)) (clock st + d - clock st))
      with false; [done |].
    symmetry. apply TimeManagementFacts.Qle_bool_false. lra.
Qed.

Lemma rating_cache_hit_witness :
  get_rating_cached (Config.defaults "icbmbot") (λ _, None) "Rival" "rapid"
    (sleep 599
       (get_rating_cached (Config.defaults "icbmbot")
          DispatchScenario.strong_rivals "Rival" "rapid" initial).2)
  = (Some 3200%Z,
     sleep 599
       (get_rating_cached (Config.defaults "icbmbot")
          DispatchScenario.strong_rivals "Rival" "rapid" initial).2).
Proof.
  refine (proj2 (rating_cache_hit (Config.defaults "icbmbot")
            DispatchScenario.strong_rivals "Rival" "rapid" initial)
            (λ _, None) 599 _ _ _).
  - vm_compute; congruence.
  - vm_compute; reflexivity.
  - intros t r H. vm_compute in H. discriminate.
Defined.

(** [should_challenge] answers [True] only when fewer than
    [MAX_OUTGOING_CHALLENGES] challenges are pending, the opponent is not
    pending, any recorded attempt is at least [RECHALLENGE_COOLDOWN] old,
    and the rating is known and at least [MIN_CHALLENGE_RATING]; whatever
    it answers, it changes nothing but the rating cache. *)
Theorem should_challenge_sound cfg srv u st :
  ((should_challenge cfg srv u st).1 = true →
     (Z.of_nat (size (pending_challenges st)) < MAX_OUTGOING_CHALLENGES cfg)%Z ∧
     pending_challenges st !! PyStr.lower u = None ∧
     (∀ last, last_challenged st !! PyStr.lower u = Some last →
              inject_Z (RECHALLENGE_COOLDOWN cfg) <= clock st - last) ∧
     ∃ r, (get_rating_cached cfg srv u
             (perf_for_limit (CHALLENGE_CLOCK_SEC cfg) (CHALLENGE_INC cfg)) st).1
          = Some r ∧ (MIN_CHALLENGE_RATING cfg ≤ r)%Z) ∧
  pending_challenges (should_challenge cfg srv u st).2 = pending_challenges st ∧
  last_challenged (should_challenge cfg srv u st).2 = last_challenged st ∧
  active_games (should_challenge cfg srv u st).2 = active_games st ∧
  clock (should_challenge cfg srv u st).2 = clock st ∧
  created_challenges (should_challenge cfg srv u st).2 = created_challenges st.
Proof.
  assert (Hg : ∀ p,
    pending_challenges (get_rating_cached cfg srv u p st).2 = pending_challenges st ∧
    last_challenged (get_rating_cached cfg srv u p st).2 = last_challenged st ∧
    active_games (get_rating_cached cfg srv u p st).2 = active_games st ∧
    clock (get_rating_cached cfg srv u p st).2 = clock st ∧
    created_challenges (get_rating_cached cfg srv u p st).2 = created_challenges st).
  { intros p. unfold get_rating_cached.
    destruct (rating_cache st !! (PyStr.lower u, p)) as [[t r] |]; cbn [fst snd];
      [destruct (negb _) |]; done. }
  unfold should_challenge.
  destruct (Z.leb_spec (MAX_OUTGOING_CHALLENGES cfg)
              (Z.of_nat (size (pending_challenges st)))) as [Hfull | Hroom];
    [done |].
  destruct (decide (is_Some (pending_challenges st !! PyStr.lower u))) as [Hp | Hp];
    [done |].
  apply eq_None_not_Some in Hp.
  destruct (last_challenged st !! PyStr.lower u) as [last |] eqn:Hlast.
  - destruct (Qle_bool (inject_Z (RECHALLENGE_COOLDOWN cfg)) (clock st - last)) eqn:Hc;
      cbn [negb]; [| done].
    apply Qle_bool_iff in Hc.
    specialize (Hg (perf_for_limit (CHALLENGE_CLOCK_SEC cfg) (CHALLENGE_INC cfg))).
    destruct (get_rating_cached cfg srv u _ st) as [[r |] st'] eqn:Eg;
      cbn [fst snd] in *; [| done].
    destruct (Z.ltb_spec r (MIN_CHALLENGE_RATING cfg)); cbn [fst snd]; [done |].
    split; [| done]. intros _. split; [lia |]. split; [done |].
    split; [by intros ? [= <-] |]. by exists r.
  - cbn match.
    specialize (Hg (perf_for_limit (CHALLENGE_CLOCK_SEC cfg) (CHALLENGE_INC cfg))).
    destruct (get_rating_cached cfg srv u _ st) as [[r |] st'] eqn:Eg;
      cbn [fst snd] in *; [| done].
    destruct (Z.ltb_spec r (MIN_CHALLENGE_RATING cfg)); cbn [fst snd]; [done |].
    split; [| done]. intros _. split; [lia |]. split; [done |].
    split; [done |]. by exists r.
Qed.

(** [http_throttle] never moves the clock back, waits out the slot booked
    by the previous call, and books the next slot [RATE_MIN_INTERVAL]
    later: two throttled requests are at least that far apart. *)
Theorem http_throttle_spacing cfg st d :
  0 <= d →
  clock st <= clock (http_throttle cfg st) ∧
  next_http_ok_at st <= clock (http_throttle cfg st) ∧
  next_http_ok_at (http_throttle cfg st) ==
    clock (http_throttle cfg st) + RATE_MIN_INTERVAL cfg ∧
  clock (http_throttle cfg st) + RATE_MIN_INTERVAL cfg <=
    clock (http_throttle cfg (sleep d (http_throttle cfg st))).
Proof.
  intros Hd.
  assert (H1 : ∀ s, clock s <= clock (http_throttle cfg s) ∧
                    next_http_ok_at s <= clock (http_throttle cfg s) ∧
                    next_http_ok_at (http_throttle cfg s) ==
                      clock (http_throttle cfg s) + RATE_MIN_INTERVAL cfg).
  { intros s. unfold http_throttle.
    destruct (Qle_bool (next_http_ok_at s) (clock s)) eqn:E; cbn [negb].
    - apply Qle_bool_iff in E. cbn. repeat split; lra.
    - apply TimeManagementFacts.Qle_bool_false in E. cbn. repeat split; lra. }
  destruct (H1 st) as (Ha & Hb & Hc).
  split; [done |]. split; [done |]. split; [done |].
  destruct (H1 (sleep d (http_throttle cfg st))) as (_ & Hb' & _).
  cbn [sleep next_http_ok_at] in Hb'. lra.
Qed.

Lemma http_throttle_spacing_witness :
  clock (http_throttle (Config.defaults "icbmbot") initial) + 60.0 <=
  clock (http_throttle (Config.defaults "icbmbot")
           (sleep 7 (http_throttle (Config.defaults "icbmbot") initial))).
Proof.
  refine (proj2 (proj2 (proj2 (http_throttle_spacing (Config.defaults "icbmbot")
                                 initial 7 _)))).
  vm_compute; congruence.
Defined.

Lemma should_challenge_sound_witness :
  pending_challenges initial !! PyStr.lower "Rival" = None.
Proof.
  refine (proj1 (proj2 (proj1 (should_challenge_sound (Config.defaults "icbmbot")
            DispatchScenario.strong_rivals "Rival" initial) _))).
  vm_compute. reflexivity.
Defined.

End DispatchMoreFacts.

Module ResultsFacts.
Import Registry Results.
Local Open Scope Z_scope.

Lemma inc_result_cases kind c :
  (kind = "win" ∧ wins (inc_result kind c) = wins c + 1 ∧
   losses (inc_result kind c) = losses c ∧ draws (inc_result kind c) = draws c) ∨
  (kind = "loss" ∧ wins (inc_result kind c) = wins c ∧
   losses (inc_result kind c) = losses c + 1 ∧ draws (inc_result kind c) = draws c) ∨
  (kind = "draw" ∧ wins (inc_result kind c) = wins c ∧
   losses (inc_result kind c) = losses c ∧ draws (inc_result kind c) = draws c + 1) ∨
  (kind ≠ "win" ∧ kind ≠ "loss" ∧ kind ≠ "draw" ∧ inc_result kind c = c).
Proof.
  unfold inc_result.
  destruct (String.eqb_spec kind "win") as [-> | H1]; [by left |].
  destruct (String.eqb_spec kind "loss") as [-> | H2]; [by right; left |].
  destruct (String.eqb_spec kind "draw") as [-> | H3]; [by right; right; left |].
  by right; right; right.
Qed.

Lemma outcome_kind_known result my_color kind :
  outcome_kind result my_color = Some kind →
  kind = "win" ∨ kind = "loss" ∨ kind = "draw".
Proof.
  unfold outcome_kind. destruct result as [[status winner] |]; [| done].
  destruct (decisive_status _).
  - destruct winner as [w |]; [| intros [= <-]; auto].
    destruct (_ || _); intros [= <-]; auto.
  - destruct (_ || _); [intros [= <-]; auto | done].
Qed.

(** Session teardown always releases the game id (and only it) and bumps
    at most one counter, never lowering any: a win is counted exactly when
    the status is decisive and the reported winner is the session's own
    colour; a failed export counts nothing; an export without status and
    winner counts a draw. *)
Theorem finalize_game_accounts result gid my_color st c :
  (gid ∉ active_games (finalize_game result gid my_color st c).1) ∧
  (∀ g, g ≠ gid →
        (g ∈ active_games (finalize_game result gid my_color st c).1 ↔
         g ∈ active_games st)) ∧
  wins c ≤ wins (finalize_game result gid my_color st c).2 ∧
  losses c ≤ losses (finalize_game result gid my_color st c).2 ∧
  draws c ≤ draws (finalize_game result gid my_color st c).2 ∧
  games c ≤ games (finalize_game result gid my_color st c).2 ≤ games c + 1 ∧
  (wins (finalize_game result gid my_color st c).2 = wins c + 1 ↔
   ∃ status winner,
     result = Some (status, Some winner) ∧
     decisive_status (PyStr.lower (default EmptyString status)) = true ∧
     ((winner = "white" ∧ my_color = Some true) ∨
      (winner = "black" ∧ my_color = Some false))) ∧
  (result = None → (finalize_game result gid my_color st c).2 = c) ∧
  (result = Some (None, None) →
   draws (finalize_game result gid my_color st c).2 = draws c + 1).
Proof.
  unfold finalize_game. cbn [fst snd].
  split; [unfold remove_active, set_active; simpl; set_solver |].
  split; [intros g Hne; unfold remove_active, set_active; simpl; set_solver |].
  assert (Hwin : outcome_kind result my_color = Some "win" ↔
    ∃ status winner,
     result = Some (status, Some winner) ∧
     decisive_status (PyStr.lower (default EmptyString status)) = true ∧
     ((winner = "white" ∧ my_color = Some true) ∨
      (winner = "black" ∧ my_color = Some false))).
  { unfold outcome_kind. destruct result as [[status winner] |]; cycle 1.
    { split; [done | by intros (? & ? & ? & _)]. }
    destruct (decisive_status (PyStr.lower (default "" status))) eqn:Ed; cycle 1.
    { split.
      - destruct (_ || _); [by intros [=] | done].
      - intros (s0 & w0 & Heq & Hd0 & _). simplify_eq. congruence. }
    destruct winner as [w |]; cycle 1.
    { split; [by intros [=] | intros (s0 & w0 & Heq & _); simplify_eq]. }
    split.
    - intros H. exists status, w. split; [done |]. split; [done |].
      destruct (String.eqb_spec w "white") as [Hw | ?],
               (String.eqb_spec w "black") as [Hb | ?];
        repeat case_bool_decide; cbn in H; subst; try done; auto.
    - intros (s0 & w0 & Heq & _ & Hc). simplify_eq.
      destruct Hc as [[-> ->] | [-> ->]]; done. }
  destruct (outcome_kind result my_color) as [kind |] eqn:Ek.
  - pose proof (outcome_kind_known _ _ _ Ek) as Hk.
    unfold games.
    destruct (inc_result_cases kind c)
      as [(-> & Hw & Hl & Hd) | [(-> & Hw & Hl & Hd) | [(-> & Hw & Hl & Hd)
          | (? & ? & ? & _)]]];
      [| | | naive_solver];
      rewrite Hw, Hl, Hd;
      (split; [lia |]); (split; [lia |]); (split; [lia |]); (split; [lia |]);
      (split; [split; [intros ?; try lia; (by apply Hwin)
                      | intros H; apply Hwin in H; (done || lia)] |]);
      (split; [intros ->; done |]); intros ->; (done || lia).
  - unfold games.
    split; [lia |]. split; [lia |]. split; [lia |]. split; [lia |].
    split; [split; [lia | intros H; by apply Hwin in H] |].
    split; [done |]. intros ->. done.
Qed.

Lemma finalize_game_accounts_witness :
  draws (finalize_game (Some (None, None)) "g1" (Some true) initial
           {| wins := 3; losses := 1; draws := 4 |}).2 = 4 + 1.
Proof.
  apply (proj2 (proj2 (proj2 (proj2 (proj2 (proj2 (proj2 (proj2
    (finalize_game_accounts (Some (None, None)) "g1" (Some true) initial
       {| wins := 3; losses := 1; draws := 4 |}))))))))).
  reflexivity.
Defined.

End ResultsFacts.

Module RetryMoreFacts.
Import Retry RetryScenario.
Local Open Scope Z_scope.

Lemma retry_recovers_from {V : Type} (cfg : Config.t) (fn : nat → outcome V) (v : V) :
  Qle_bool 0 (Config.RECONNECT_DELAY_SEC cfg) = true →
  ∀ (n : nat) fuel i attempt b naps,
    attempt + Z.of_nat n ≤ Config.MAX_NET_RETRIES cfg →
    (∀ j, (i ≤ j < i + n)%nat →
          ∃ e, fn j = Raises e ∧ is_rate_limit e = false ∧
               _is_transient_net_err e = true) →
    fn (i + n)%nat = Returns v → (n < fuel)%nat →
    retry_loop cfg fuel fn i attempt b naps =
    (Returned v, S (i + n),
     naps ++ replicate n (TransientNap (Config.RECONNECT_DELAY_SEC cfg))).
Proof.
  intros Hd n. induction n as [| n IH]; intros fuel i attempt b naps Ha Hfail Hok Hf.
  - destruct fuel as [| fuel]; [lia |]. rewrite RetryFacts.retry_loop_step.
    rewrite Nat.add_0_r in Hok. rewrite Hok, app_nil_r. by rewrite Nat.add_0_r.
  - destruct fuel as [| fuel]; [lia |]. rewrite RetryFacts.retry_loop_step.
    destruct (Hfail i ltac:(lia)) as (e & -> & -> & ->).
    replace (Config.MAX_NET_RETRIES cfg <? attempt + 1) with false
      by (symmetry; apply Z.ltb_ge; lia).
    rewrite Hd. cbn [negb].
    rewrite (IH fuel (S i) (attempt + 1) b).
    + rewrite <- app_assoc. cbn [replicate app]. do 3 f_equal. lia.
    + lia.
    + intros j Hj. apply Hfail. lia.
    + by replace (S i + n)%nat with (i + S n)%nat by lia.
    + lia.
Qed.

(** A call that fails transiently [k] times, with [k] within
    [MAX_NET_RETRIES], and then succeeds, returns the value of the
    successful invocation after exactly [k] pauses of
    [RECONNECT_DELAY_SEC]; a call that succeeds at once takes no pause. *)
Theorem retry_call_recovers {V : Type} (cfg : Config.t) (fn : nat → outcome V)
    (k : nat) (v : V) :
  Qle_bool 0 (Config.RECONNECT_DELAY_SEC cfg) = true →
  Z.of_nat k ≤ Config.MAX_NET_RETRIES cfg →
  (∀ j, (j < k)%nat →
        ∃ e, fn j = Raises e ∧ is_rate_limit e = false ∧
             _is_transient_net_err e = true) →
  fn k = Returns v →
  ∀ fuel, (k < fuel)%nat →
    _retry_call cfg fuel fn =
    (Returned v, S k, replicate k (TransientNap (Config.RECONNECT_DELAY_SEC cfg))).
Proof.
  intros Hd Hk Hfail Hok fuel Hf. unfold _retry_call.
  rewrite (retry_recovers_from cfg fn v Hd k fuel 0%nat 0 60 []); try done; try lia.
  intros j Hj. apply Hfail. lia.
Qed.

Lemma retry_call_recovers_witness :
  _retry_call (Config.defaults "icbmbot") 7
    (λ j, if (j <? 6)%nat then Raises connection_reset else Returns 42%nat)
  = (Returned 42%nat, 7%nat, replicate 6 (TransientNap 5.0)).
Proof.
  apply (retry_call_recovers (Config.defaults "icbmbot")
           (λ j, if (j <? 6)%nat then Raises connection_reset else Returns 42%nat)
           6 42%nat).
  - reflexivity.
  - simpl. lia.
  - intros j Hj. exists connection_reset.
    apply Nat.ltb_lt in Hj. rewrite Hj. repeat split; vm_compute; reflexivity.
  - reflexivity.
  - lia.
Defined.




End RetryMoreFacts.

Module FenKeyFacts.
Import Fen.

Lemma no_space_snoc (acc : string) (c : ascii) :
  no_space acc = true → is_space c = false →
  no_space (acc +:+ String c "") = true.
Proof.
  intros Ha Hc. induction acc as [| d acc IH].
  - change ("" +:+ String c "") with (String c ""). cbn [no_space].
    by rewrite Hc.
  - cbn [no_space] in Ha. apply andb_prop in Ha as [Hd Ha].
    change (String d acc +:+ String c "") with (String d (acc +:+ String c "")).
    cbn [no_space]. by rewrite Hd, IH.
Qed.

(** Every piece produced by [split] is a field. *)
Lemma split_acc_fields (s : string) : ∀ acc,
  no_space acc = true → Forall field (split_acc acc s).
Proof.
  induction s as [| c s IH]; intros acc Hacc; cbn [split_acc].
  - destruct (is_empty acc) eqn:E; [constructor |].
    constructor; [done | constructor].
  - destruct (is_space c) eqn:Ec.
    + destruct (is_empty acc) eqn:E; [by apply IH |].
      constructor; [done | by apply IH].
    + apply IH. by apply no_space_snoc.
Qed.

Lemma split_fields (s : string) : Forall field (split s).
Proof. by apply split_acc_fields. Qed.

Lemma sanitize_ep_field (ep : string) : field ep → field (sanitize_ep ep).
Proof.
  intros H. unfold sanitize_ep.
  destruct (_ && _); [split; reflexivity | done].
Qed.

Lemma sanitize_ep_idem (ep : string) : sanitize_ep (sanitize_ep ep) = sanitize_ep ep.
Proof.
  destruct (negb (String.eqb ep "-") && negb (is_ep_square ep)) eqn:E.
  - assert (H : sanitize_ep ep = "-") by (unfold sanitize_ep; by rewrite E).
    rewrite H. reflexivity.
  - assert (H : sanitize_ep ep = ep) by (unfold sanitize_ep; by rewrite E).
    by rewrite !H.
Qed.

Lemma sanitize_ep_valid (ep : string) :
  sanitize_ep ep = "-" ∨ is_ep_square (sanitize_ep ep) = true.
Proof.
  unfold sanitize_ep. destruct (String.eqb_spec ep "-") as [-> | ?]; [by left |].
  cbn [negb andb]. destruct (is_ep_square ep) eqn:E; cbn [negb]; auto.
Qed.

(** A key produced by [normalize_fen] has exactly four fields, the last
    one ["-"] or an en-passant square, and is its own normal form:
    normalising twice is normalising once.  [normalize_fen] raises exactly
    when its argument has fewer than four fields. *)
Theorem normalize_fen_idempotent (fen : string) :
  (∀ key, normalize_fen fen = Some key →
     normalize_fen key = Some key ∧
     ∃ b t c ep,
       split key = [b; t; c; ep] ∧ Forall field [b; t; c] ∧
       (ep = "-" ∨ is_ep_square ep = true)) ∧
  (normalize_fen fen = None ↔ length (split fen) < 4).
Proof.
  assert (Hn : normalize_fen fen =
    match split fen with
    | b :: t :: c :: ep :: _ => Some (join " " [b; t; c; sanitize_ep ep])
    | _ => None
    end) by (unfold normalize_fen; by rewrite FenFacts.split_strip).
  rewrite Hn. clear Hn.
  pose proof (split_fields fen) as HF.
  destruct (split fen) as [| b [| t [| c [| ep rest]]]] eqn:E;
    try (split; [done | split; [cbn; lia | done]]).
  split; [| split; [done | cbn; lia]].
  intros key Hk.
  assert (Ek : key = join " " [b; t; c; sanitize_ep ep]) by congruence.
  clear Hk. subst key.
  apply Forall_cons in HF as [Hb HF]. apply Forall_cons in HF as [Ht HF].
  apply Forall_cons in HF as [Hc HF]. apply Forall_cons in HF as [Hep _].
  assert (Hall : Forall field [b; t; c; sanitize_ep ep]).
  { repeat (constructor; [done |]). constructor; [| constructor].
    by apply sanitize_ep_field. }
  split.
  - rewrite (FenFacts.normalize_fen_fields b t c (sanitize_ep ep) [] Hall).
    by rewrite sanitize_ep_idem.
  - exists b, t, c, (sanitize_ep ep).
    split; [by apply FenFacts.split_join |].
    split; [repeat (constructor; [done |]); constructor | apply sanitize_ep_valid].
Qed.

Lemma normalize_fen_idempotent_witness :
  normalize_fen "8/8/8/3pP3/8/8/8/K6k w - d6" = Some "8/8/8/3pP3/8/8/8/K6k w - d6".
Proof.
  apply (proj1 (normalize_fen_idempotent
                  "  8/8/8/3pP3/8/8/8/K6k   w - d6 0 40")
               "8/8/8/3pP3/8/8/8/K6k w - d6").
  reflexivity.
Defined.

End FenKeyFacts.

Module FenCacheFacts.
Import Fen FenCache.
Local Open Scope Z_scope.

Lemma migrated_key_idem (k : string) : migrated_key (migrated_key k) = migrated_key k.
Proof.
  destruct (normalize_fen k) as [key |] eqn:E.
  - assert (E' : migrated_key k = key) by (unfold migrated_key; by rewrite E).
    rewrite E'. unfold migrated_key.
    by rewrite (proj1 (proj1 (FenKeyFacts.normalize_fen_idempotent k) key E)).
  - assert (E' : migrated_key k = k) by (unfold migrated_key; by rewrite E).
    by rewrite !E'.
Qed.

Lemma migrate_invariant (cache : list (string * entry)) :
  (∀ k e, foldl migrate_step ∅ cache !! k = Some e →
          ∃ old, (old, e) ∈ cache ∧ migrated_key old = k) ∧
  (∀ old e, (old, e) ∈ cache →
            ∃ e', foldl migrate_step ∅ cache !! migrated_key old = Some e' ∧
                  depth e ≤ depth e').
Proof.
  induction cache as [| [old0 e0] cache [IHa IHb]] using rev_ind.
  - split; [intros k e H; cbn [foldl] in H; by rewrite lookup_empty in H |].
    intros old e H. by apply elem_of_nil in H.
  - rewrite foldl_snoc. set (m := foldl migrate_step ∅ cache) in *.
    assert (Hins :
      (∀ cur, m !! migrated_key old0 = Some cur → depth cur < depth e0) →
      (∀ k e, <[migrated_key old0 := e0]> m !! k = Some e →
              ∃ old, (old, e) ∈ cache ++ [(old0, e0)] ∧ migrated_key old = k) ∧
      (∀ old e, (old, e) ∈ cache ++ [(old0, e0)] →
                ∃ e', <[migrated_key old0 := e0]> m !! migrated_key old = Some e' ∧
                      depth e ≤ depth e')).
    { intros Hold. split.
      - intros k e. destruct (decide (migrated_key old0 = k)) as [<- | Hne].
        + rewrite lookup_insert_eq. intros [= <-]. exists old0.
          split; [| done]. apply elem_of_app. right. by apply list_elem_of_singleton.
        + rewrite lookup_insert_ne by done. intros H.
          destruct (IHa _ _ H) as (old & ? & ?). exists old.
          split; [| done]. apply elem_of_app. by left.
      - intros old e. rewrite elem_of_app, list_elem_of_singleton.
        intros [Hin | Heq].
        + destruct (IHb _ _ Hin) as (e' & He' & Hle).
          destruct (decide (migrated_key old0 = migrated_key old)) as [Hk | Hne].
          * rewrite <- Hk, lookup_insert_eq. exists e0. split; [done |].
            rewrite <- Hk in He'. specialize (Hold _ He'). lia.
          * rewrite lookup_insert_ne by done. by exists e'.
        + simplify_eq. rewrite lookup_insert_eq. exists e0. split; [done | lia]. }
    cbn [migrate_step].
    destruct (m !! migrated_key old0) as [cur |] eqn:Hcur.
    + destruct (Z.ltb_spec (depth cur) (depth e0)) as [Hlt | Hge].
      * apply Hins. by intros ? [= <-].
      * split.
        -- intros k e H. destruct (IHa _ _ H) as (old & ? & ?). exists old.
           split; [| done]. apply elem_of_app. by left.
        -- intros old e. rewrite elem_of_app, list_elem_of_singleton.
           intros [Hin | Heq]; [by apply IHb |].
           simplify_eq. by exists cur.
    + apply Hins. intros ? ?. congruence.
Qed.

(** Re-keying the cache: every kept entry comes from the file, filed under
    the normal form of its old key; every entry of the file is represented,
    under the normal form of its key, by an entry of at least its depth (so
    of two entries that collide the deeper one is kept); and re-keying a
    re-keyed cache changes nothing. *)
Theorem migrate_cache_keys_spec (cache : list (string * entry)) :
  (∀ k e, _migrate_cache_keys cache !! k = Some e →
          ∃ old, (old, e) ∈ cache ∧ migrated_key old = k) ∧
  (∀ old e, (old, e) ∈ cache →
            ∃ e', _migrate_cache_keys cache !! migrated_key old = Some e' ∧
                  depth e ≤ depth e') ∧
  _migrate_cache_keys (map_to_list (_migrate_cache_keys cache))
  = _migrate_cache_keys cache.
Proof.
  destruct (migrate_invariant cache) as [Ha Hb].
  split; [exact Ha |]. split; [exact Hb |].
  set (m := _migrate_cache_keys cache) in *.
  change (foldl migrate_step ∅ cache) with m in Ha, Hb.
  destruct (migrate_invariant (map_to_list m)) as [Ha' Hb'].
  change (foldl migrate_step ∅ (map_to_list m))
    with (_migrate_cache_keys (map_to_list m)) in Ha', Hb'.
  assert (Hfix : ∀ k e, m !! k = Some e → migrated_key k = k).
  { intros k e H. destruct (Ha _ _ H) as (old & _ & <-). apply migrated_key_idem. }
  apply map_eq. intros k. apply option_eq. intros e. split.
  - intros H. destruct (Ha' _ _ H) as (old & Hin & Hk).
    apply elem_of_map_to_list in Hin. rewrite (Hfix _ _ Hin) in Hk. by subst.
  - intros H. pose proof (Hfix _ _ H) as Hk.
    apply elem_of_map_to_list in H as Hin.
    destruct (Hb' _ _ Hin) as (e' & He' & _). rewrite Hk in He'.
    destruct (Ha' _ _ He') as (old & Hin' & Hk').
    apply elem_of_map_to_list in Hin'. rewrite (Hfix _ _ Hin') in Hk'. subst old.
    congruence.
Qed.

(** Two entries whose keys differ only in the move counters collide, and
    the deeper one survives. *)
Example migrate_keeps_deeper :
  _migrate_cache_keys
    [("8/8/8/8/8/8/8/K6k w - - 0 1",
      {| bestmove := Some "a1a2"; pv := "a1a2"; depth_reached := Some 12 |});
     ("8/8/8/8/8/8/8/K6k w - - 7 30",
      {| bestmove := Some "a1b1"; pv := "a1b1"; depth_reached := Some 20 |})]
  !! "8/8/8/8/8/8/8/K6k w - -"
  = Some {| bestmove := Some "a1b1"; pv := "a1b1"; depth_reached := Some 20 |}.
Proof. vm_compute. reflexivity. Qed.

Lemma migrate_cache_keys_spec_witness :
  ∃ e',
    _migrate_cache_keys
      [("8/8/8/8/8/8/8/K6k w - - 0 1",
        {| bestmove := Some "a1a2"; pv := "a1a2"; depth_reached := Some 12 |});
       ("8/8/8/8/8/8/8/K6k w - - 7 30",
        {| bestmove := Some "a1b1"; pv := "a1b1"; depth_reached := None |})]
    !! migrated_key "8/8/8/8/8/8/8/K6k w - - 7 30" = Some e' ∧
    depth {| bestmove := Some "a1b1"; pv := "a1b1"; depth_reached := None |}
    ≤ depth e'.
Proof.
  apply (proj1 (proj2 (migrate_cache_keys_spec _))).
  apply elem_of_cons. right. apply elem_of_cons. by left.
Defined.

End FenCacheFacts.

Module BookMoreFacts.
Import Book.
Local Open Scope Z_scope.

Lemma heaviest_spec (rest : list entry) : ∀ first,
  heaviest first rest ∈ first :: rest ∧
  (∀ e, e ∈ first :: rest → weight e ≤ weight (heaviest first rest)).
Proof.
  induction rest as [| x rest IH]; intros first; cbn [heaviest].
  - split; [by apply list_elem_of_singleton |].
    intros e He. apply list_elem_of_singleton in He. by subst.
  - set (f := if weight first <? weight x then x else first).
    assert (Hf : (f = first ∨ f = x) ∧ weight first ≤ weight f ∧ weight x ≤ weight f).
    { unfold f. destruct (Z.ltb_spec (weight first) (weight x)); split; auto; lia. }
    destruct Hf as (Hf & H1 & H2). destruct (IH f) as [Hin Hmax]. split.
    + apply elem_of_cons in Hin as [-> | Hin].
      * destruct Hf as [-> | ->]; set_solver.
      * set_solver.
    + intros e He. assert (Hff : weight f ≤ weight (heaviest f rest))
        by (apply Hmax; set_solver).
      apply elem_of_cons in He as [-> | He]; [lia |].
      apply elem_of_cons in He as [-> | He]; [lia |].
      apply Hmax. set_solver.
Qed.

(** The books with entries are listed by increasing position. *)
Lemma list_entries_from_head readers : ∀ k idx label es rest,
  list_entries_from k readers = (idx, label, es) :: rest →
  ∀ idx' label' es', (idx', label', es') ∈ rest → (idx < idx')%nat.
Proof.
  induction readers as [| [rdr lbl] rs IH]; intros k idx label es rest; [done |].
  assert (Hlow : ∀ idx' label' es',
    (idx', label', es') ∈ list_entries_from (S k) rs → (k < idx')%nat).
  { intros ??? H. apply BookFacts.list_entries_from_spec in H as (j & -> & _). lia. }
  destruct rdr as [| [[| e0 es0] |]]; cbn [list_entries_from default from_option id];
    try (intros H; by apply (IH _ _ _ _ _ H)).
  intros [= <- <- <- <-]. exact Hlow.
Qed.

Lemma find_book_move_first_match readers :
  _find_book_move FirstMatch readers = first_match readers.
Proof. by destruct readers. Qed.

(** Under the first-match policy [_find_book_move] returns nothing exactly
    when no consulted book offers a move; otherwise it returns a move of the
    earliest book that offers anything, with that book's label, and no
    entry of that book is heavier. *)
Theorem find_book_move_first readers :
  (_find_book_move FirstMatch readers = None ↔
   ∀ idx label u w, ¬ offered readers idx label u w) ∧
  (∀ u label,
     _find_book_move FirstMatch readers = Some (u, label) →
     ∃ w idx,
       offered readers idx label u w ∧
       (∀ idx' label' v w',
          offered readers idx' label' v w' →
          (idx ≤ idx')%nat ∧ (idx' = idx → w' ≤ w))).
Proof.
  rewrite find_book_move_first_match. unfold first_match, list_entries.
  destruct (list_entries_from 0 readers) as [| [[idx label] es] rest] eqn:E.
  - split; [| done]. split; [| done]. intros _ idx label u w (es & Hl & He).
    assert (Hin : (idx, label, es) ∈ list_entries_from 0 readers).
    { apply BookFacts.list_entries_from_spec. exists idx. split; [done |].
      split; [done |]. intros ->. by apply elem_of_nil in He. }
    rewrite E in Hin. by apply elem_of_nil in Hin.
  - assert (Hhead : (idx, label, es) ∈ list_entries_from 0 readers)
      by (rewrite E; apply elem_of_cons; by left).
    apply BookFacts.list_entries_from_spec in Hhead as (j & Hj & Hl & Hne).
    cbn in Hj. subst j.
    destruct es as [| e es]; [done |].
    destruct (heaviest_spec es e) as [Hin Hmax].
    split.
    { split; [done |]. intros Hno. exfalso.
      apply (Hno idx label (move e) (weight e)). exists (e :: es).
      split; [done |]. destruct e. apply elem_of_cons. by left. }
    intros u label' [= <- <-].
    exists (weight (heaviest e es)), idx. split.
    { exists (e :: es). split; [done |]. by destruct (heaviest e es). }
    intros idx' label' v w' (es' & Hl' & He').
    assert (Hin' : (idx', label', es') ∈ list_entries_from 0 readers).
    { apply BookFacts.list_entries_from_spec. exists idx'. split; [done |].
      split; [done |]. intros ->. by apply elem_of_nil in He'. }
    rewrite E in Hin'. apply elem_of_cons in Hin' as [Heq | Hin'].
    + simplify_eq. split; [lia |]. intros _.
      by apply (Hmax (Entry v w')).
    + pose proof (list_entries_from_head _ _ _ _ _ _ E _ _ _ Hin'). lia.
Qed.

Lemma find_book_move_first_witness :
  ∃ w idx,
    offered [(Reader None, "W"); (Reader (Some [Entry "e2e4" 10; Entry "d2d4" 12]), "A");
             (Reader (Some [Entry "c2c4" 99]), "B")]
            idx "A" "d2d4" w.
Proof.
  destruct (proj2 (find_book_move_first
    [(Reader None, "W"); (Reader (Some [Entry "e2e4" 10; Entry "d2d4" 12]), "A");
     (Reader (Some [Entry "c2c4" 99]), "B")]) "d2d4" "A") as (w & idx & Ho & _).
  - vm_compute. reflexivity.
  - by exists w, idx.
Defined.

(** The best-move choice depends only on what the books offer: two reader
    lists with the same offers (whatever the order or repetition of the
    entries inside a book, and whatever slots are empty or unreadable) give
    the same move and label. *)
Theorem best_move_extensional readers1 readers2 :
  (∀ idx label u w,
     offered readers1 idx label u w ↔ offered readers2 idx label u w) →
  _find_book_move BestMove readers1 = _find_book_move BestMove readers2.
Proof.
  intros Hsame.
  destruct (BookFacts.best_move_spec readers1) as [Hn1 Hs1].
  destruct (BookFacts.best_move_spec readers2) as [Hn2 Hs2].
  destruct (_find_book_move BestMove readers1) as [[u1 l1] |] eqn:E1,
           (_find_book_move BestMove readers2) as [[u2 l2] |] eqn:E2.
  - destruct (Hs1 _ _ eq_refl) as (w1 & i1 & Ho1 & _ & Hall1).
    destruct (Hs2 _ _ eq_refl) as (w2 & i2 & Ho2 & _ & Hall2).
    pose proof (Hall1 _ _ _ _ (proj2 (Hsame _ _ _ _) Ho2)) as H12.
    pose proof (Hall2 _ _ _ _ (proj1 (Hsame _ _ _ _) Ho1)) as H21.
    assert (Hw : w1 = w2) by lia.
    assert (Hi : i1 = i2) by lia.
    assert (Hu : u1 = u2).
    { apply String.leb_antisym.
      - destruct H12 as [? | [_ [? | [_ ?]]]]; [lia | lia | done].
      - destruct H21 as [? | [_ [? | [_ ?]]]]; [lia | lia | done]. }
    subst. apply Hsame in Ho1. destruct Ho1 as (es1 & Hl1 & _).
    destruct Ho2 as (es2 & Hl2 & _). congruence.
  - exfalso. destruct (Hs1 _ _ eq_refl) as (w1 & i1 & Ho1 & _).
    apply Hsame in Ho1. by apply (proj1 Hn2 eq_refl) in Ho1.
  - exfalso. destruct (Hs2 _ _ eq_refl) as (w2 & i2 & Ho2 & _).
    apply Hsame in Ho2. by apply (proj1 Hn1 eq_refl) in Ho2.
  - done.
Qed.

Lemma best_move_extensional_witness :
  _find_book_move BestMove
    [(Reader (Some [Entry "e2e4" 10; Entry "d2d4" 12; Entry "e2e4" 10]), "A");
     (Reader None, "B")]
  = _find_book_move BestMove
    [(Reader (Some [Entry "d2d4" 12; Entry "e2e4" 10]), "A"); (NoReader, "C")].
Proof.
  apply best_move_extensional. intros idx label u w. unfold offered.
  split; intros (es & Hl & He); destruct idx as [| [| idx]]; cbn in Hl;
    simplify_eq; eexists; (split; [reflexivity |]); set_solver.
Defined.

End BookMoreFacts.

Module PipelineMoreFacts.
Import Config TimeManagement Pipeline PipelineLog.
Local Open Scope Q_scope.

Lemma pushes_app (t1 t2 : list action) : pushes (t1 ++ t2) = pushes t1 ++ pushes t2.
Proof. unfold pushes. apply omap_app. Qed.

Lemma accepted_prefix (w : world) (pre t : list action) :
  pushes pre = [] → accepted w t → accepted w (pre ++ t).
Proof.
  intros Hpre (q & tag & mv & -> & Hq & Hok).
  exists (pre ++ q), tag, mv. split; [by rewrite app_assoc |].
  split; [by rewrite pushes_app, Hpre, Hq | exact Hok].
Qed.

Lemma accepted_pushes (w : world) (t : list action) :
  accepted w t → pushes t ≠ [].
Proof.
  intros (q & tag & mv & -> & Hq & _). rewrite pushes_app, Hq. done.
Qed.

(** The last two actions of a log decide whether it ends with a push of
    the normal search. *)
Lemma not_normal_prefix (w : world) (pre t : list action) :
  accepted w t → not_normal t → not_normal (pre ++ t).
Proof.
  intros (q & tag & mv & -> & _ & _) Hn q' mv' E.
  rewrite app_assoc in E. apply app_inj_2 in E as [_ E]; [| done].
  simplify_eq. by apply (Hn q mv').
Qed.

Lemma not_normal_reported (w : world) (t : list action) :
  not_normal t → ¬ unreported w t.
Proof.
  intros Hn [_ (q & l & mv & ->)].
  apply (Hn (q ++ [CacheProbe l]) mv). by rewrite <- app_assoc.
Qed.

Lemma disciplined_prefix (w : world) (pre : list action) ok t :
  pushes pre = [] → disciplined w ok t → disciplined w ok (pre ++ t).
Proof.
  intros Hpre (Hok & Hko). split.
  - intros H. destruct (Hok H) as [Ha Hn].
    split; [by apply accepted_prefix | by apply (not_normal_prefix w)].
  - intros H. by rewrite pushes_app, Hpre, (Hko H).
Qed.

(** A step that pushed nothing and did not succeed. *)
Lemma disciplined_idle (w : world) ok t :
  default false ok = false → pushes t = [] → disciplined w ok t.
Proof. intros Hok Hp. split; [by rewrite Hok | done]. Qed.

Lemma disciplined_settled (w : world) ok t :
  disciplined w ok t → settled w ok t.
Proof.
  intros [Hok Hko]. split; [| split].
  - intros H. destruct (Hok H) as [Ha Hn].
    split; [exact Ha | by apply not_normal_reported].
  - destruct (default false ok); [right; by apply Hok | left; by apply Hko].
  - intros H. left. by apply Hko.
Qed.

(** The submissions of the steps other than the normal search. *)
Lemma submit_disciplined w tag mv :
  tag ≠ "normal" → disciplined w (submit w tag mv).1 (submit w tag mv).2.
Proof.
  intros Htag.
  unfold submit. destruct (make_move w tag mv) eqn:E; cbn [fst snd];
    try (by apply disciplined_idle).
  split; [| done]. intros _. split; [by exists [], tag, mv |].
  intros q mv' Eq.
  apply (app_inj_2 []) in Eq as [_ Eq]; [| done]. by simplify_eq.
Qed.

Lemma micro_fallback_disciplined w tag :
  tag ≠ "normal" →
  disciplined w (_micro_fallback_move w tag).1 (_micro_fallback_move w tag).2.
Proof.
  intros Htag.
  unfold _micro_fallback_move.
  assert (H : ∀ pre mvo, pushes pre = [] →
    disciplined w
      (match truthy mvo with
       | None => (Some false, pre ++ [Resign])
       | Some mv =>
           match make_move w tag mv with
           | CallOk => (Some true, pre ++ [SubmitMove tag mv; BoardPush mv])
           | CallRejected _ => (Some false, pre ++ [SubmitMove tag mv])
           | CallCrashed => (None, pre ++ [SubmitMove tag mv])
           end
       end).1
      (match truthy mvo with
       | None => (Some false, pre ++ [Resign])
       | Some mv =>
           match make_move w tag mv with
           | CallOk => (Some true, pre ++ [SubmitMove tag mv; BoardPush mv])
           | CallRejected _ => (Some false, pre ++ [SubmitMove tag mv])
           | CallCrashed => (None, pre ++ [SubmitMove tag mv])
           end
       end).2).
  { intros pre mvo Hpre. destruct (truthy mvo) as [mv |]; cbn [fst snd].
    - pose proof (submit_disciplined w tag mv Htag) as Hs. unfold submit in Hs.
      destruct (make_move w tag mv); cbn [fst snd] in *;
        by apply disciplined_prefix.
    - apply disciplined_prefix; [done |]. by apply disciplined_idle. }
  destruct (engine_play w (Nodes 2000)) as [r |].
  - apply (H [EnginePlay (Nodes 2000)]). done.
  - apply (H [EnginePlay (Nodes 2000); FirstLegalMove]). done.
Qed.

Lemma search_limit_pushes cfg w sec_left inc_s ply bm ov :
  pushes (search_limit cfg w sec_left inc_s ply bm ov).2 = [].
Proof. unfold search_limit. by destruct sec_left. Qed.

(** The end of the normal search, after any log [pre] without a push
    whose last action is the search that found the move. *)
Lemma submit_and_report_settled (w : world) (pre : list action) (a : action)
    (cached : bool) (mv : move) :
  pushes (pre ++ [a]) = [] →
  (if cached then ∃ l, a = CacheProbe l else ∀ l, a ≠ CacheProbe l) →
  settled w (submit_and_report w cached mv).1
            ((pre ++ [a]) ++ (submit_and_report w cached mv).2).
Proof.
  intros Hpre Ha. unfold submit_and_report.
  destruct (make_move w "normal" mv) eqn:E; cbn [fst snd];
    try (apply disciplined_settled, disciplined_idle;
         [done | by rewrite pushes_app, Hpre]).
  assert (Hacc : accepted w ((pre ++ [a]) ++ [SubmitMove "normal" mv; BoardPush mv]))
    by (by exists (pre ++ [a]), "normal", mv).
  destruct cached.
  - destruct Ha as [l ->]. destruct (report_move w) as [[] |] eqn:Er.
    + split; [| split; [by right | done]].
      intros _. split; [exact Hacc |]. intros [Hn _]. congruence.
    + split; [done | split; [by right |]].
      intros _. right. split; [exact Er |].
      exists pre, l, mv. by rewrite <- app_assoc.
  - split; [| split; [by right | done]].
    intros _. split; [exact Hacc |]. intros [_ (q & l & mv' & Eq)].
    rewrite <- app_assoc in Eq. cbn [app] in Eq.
    apply app_inj_2 in Eq as [_ Eq]; [| done].
    simplify_eq. by apply (Ha l).
Qed.

Lemma normal_search_settled cfg w sec_left inc_s ply bm ov pre :
  pushes pre = [] →
  settled w (normal_search cfg w sec_left inc_s ply bm ov).1
            (pre ++ (normal_search cfg w sec_left inc_s ply bm ov).2).
Proof.
  intros Hpre. unfold normal_search.
  pose proof (search_limit_pushes cfg w sec_left inc_s ply bm ov) as Ht.
  destruct (search_limit cfg w sec_left inc_s ply bm ov) as [lim timed].
  cbn [fst snd] in Ht.
  destruct (probe_engine_with_cache w lim) as [r |];
    [| destruct (engine_play w lim) as [r |]]; cbv beta iota zeta;
    cbn [fst snd];
    try (apply disciplined_settled, disciplined_idle;
         [done | by rewrite !pushes_app, Hpre, Ht]);
    (destruct (truthy r) as [mv |]; cbn [fst snd];
       [| apply disciplined_settled, disciplined_idle;
          [done | by rewrite !pushes_app, Hpre, Ht]]).
  - pose proof (submit_and_report_settled w (pre ++ timed) (CacheProbe lim) true mv)
      as Hs.
    destruct (submit_and_report w true mv) as [ok sent]; cbn [fst snd] in *.
    replace (pre ++ timed ++ [CacheProbe lim] ++ sent)
      with (((pre ++ timed) ++ [CacheProbe lim]) ++ sent)
      by (by rewrite <- !app_assoc).
    apply Hs; [by rewrite !pushes_app, Hpre, Ht | by exists lim].
  - pose proof (submit_and_report_settled w (pre ++ timed ++ [CacheProbe lim])
                  (EnginePlay lim) false mv) as Hs.
    destruct (submit_and_report w false mv) as [ok sent]; cbn [fst snd] in *.
    replace (pre ++ timed ++ [CacheProbe lim; EnginePlay lim] ++ sent)
      with (((pre ++ timed ++ [CacheProbe lim]) ++ [EnginePlay lim]) ++ sent)
      by (by rewrite <- !app_assoc).
    apply Hs; [by rewrite !pushes_app, Hpre, Ht | done].
Qed.

Lemma settled_prefix_disciplined (w : world) (pre : list action) ok t :
  pushes pre = [] → disciplined w ok t → settled w ok (pre ++ t).
Proof. intros Hpre Hd. by apply disciplined_settled, disciplined_prefix. Qed.

Lemma after_panic_settled cfg w sec_left inc_s ply bm ov :
  settled w (after_panic cfg w sec_left inc_s ply bm ov).1
            (after_panic cfg w sec_left inc_s ply bm ov).2.
Proof.
  pose proof (normal_search_settled cfg w sec_left inc_s ply bm ov) as Hn.
  unfold after_panic.
  destruct (normal_search cfg w sec_left inc_s ply bm ov) as [okn tn];
    cbn [fst snd] in Hn.
  assert (Htail : ∀ t2, pushes t2 = [] →
    settled w
      (let '(tabled, t3) :=
         match table_probe w with
         | Some (tbhits, mv :: _) =>
             if (tbhits =? 0)%Z then (None, [EngineAnalyse (Depth 1)])
             else
               match submit w "TB" mv with
               | (Some ok, sent) => (Some ok, EngineAnalyse (Depth 1) :: sent)
               | (None, sent) => (None, EngineAnalyse (Depth 1) :: sent)
               end
         | _ => (None, [EngineAnalyse (Depth 1)])
         end in
       match tabled with
       | Some ok => (Some ok, t2 ++ t3)
       | None => (okn, t2 ++ t3 ++ tn)
       end).1
      (let '(tabled, t3) :=
         match table_probe w with
         | Some (tbhits, mv :: _) =>
             if (tbhits =? 0)%Z then (None, [EngineAnalyse (Depth 1)])
             else
               match submit w "TB" mv with
               | (Some ok, sent) => (Some ok, EngineAnalyse (Depth 1) :: sent)
               | (None, sent) => (None, EngineAnalyse (Depth 1) :: sent)
               end
         | _ => (None, [EngineAnalyse (Depth 1)])
         end in
       match tabled with
       | Some ok => (Some ok, t2 ++ t3)
       | None => (okn, t2 ++ t3 ++ tn)
       end).2).
  { intros t2 Ht2.
    assert (Hrest : ∀ t3, pushes t3 = [] → settled w okn (t2 ++ t3 ++ tn)).
    { intros t3 Ht3. rewrite app_assoc. apply Hn.
      by rewrite pushes_app, Ht2, Ht3. }
    destruct (table_probe w) as [[tbhits [| mv pv]] |]; cbn [fst snd];
      try (by apply Hrest).
    destruct (tbhits =? 0)%Z; cbn [fst snd]; [by apply Hrest |].
    pose proof (submit_disciplined w "TB" mv ltac:(done)) as Hs.
    unfold submit in *. destruct (make_move w "TB" mv); cbn [fst snd] in *.
    - apply settled_prefix_disciplined; [done |].
      by apply (disciplined_prefix w [EngineAnalyse (Depth 1)]).
    - apply settled_prefix_disciplined; [done |].
      by apply (disciplined_prefix w [EngineAnalyse (Depth 1)]).
    - by apply (Hrest [EngineAnalyse (Depth 1); SubmitMove "TB" mv]). }
  destruct (ply <=? BOOK_PLIES cfg)%Z.
  - destruct (find_book_move w) as [found |];
      [| cbn [fst snd]; by apply disciplined_settled, disciplined_idle].
    destruct (option_map fst found) as [mv |].
    + destruct (is_null mv).
      * apply (Htail [BookLookup]). done.
      * pose proof (submit_disciplined w "book" mv ltac:(done)) as Hs.
        destruct (submit w "book" mv) as [ok sent]; cbn [fst snd] in *.
        by apply (settled_prefix_disciplined w [BookLookup]).
    + apply (Htail [BookLookup]). done.
  - apply (Htail []). done.
Qed.

(** Whatever step produces the move, [safe_make_move] reports success
    exactly when it has pushed the move whose submission the platform has
    just accepted, as its last action, and (in the normal search) has
    reported it.  It never pushes any other move: the log has no push, or
    ends with the accepted submission and its push.  A call that does not
    report success has left the board untouched, with one exception: the
    normal search pushes the accepted move of the cached search and then
    fails while composing its report from the cache entry.  The engine
    handle returned is the one received. *)
Theorem safe_make_move_push_discipline {engine : Type} (cfg : Config.t)
    (w : world) (eng : engine) (my_ms inc_ms base_minutes_override : option Z) :
  ((safe_make_move cfg w eng my_ms inc_ms base_minutes_override).1.1 = true ↔
   accepted w (safe_make_move cfg w eng my_ms inc_ms base_minutes_override).2 ∧
   ¬ unreported w (safe_make_move cfg w eng my_ms inc_ms base_minutes_override).2) ∧
  (pushes (safe_make_move cfg w eng my_ms inc_ms base_minutes_override).2 = [] ∨
   accepted w (safe_make_move cfg w eng my_ms inc_ms base_minutes_override).2) ∧
  ((safe_make_move cfg w eng my_ms inc_ms base_minutes_override).1.1 = false →
   pushes (safe_make_move cfg w eng my_ms inc_ms base_minutes_override).2 = [] ∨
   unreported w (safe_make_move cfg w eng my_ms inc_ms base_minutes_override).2) ∧
  (report_move w = Some tt →
   (safe_make_move cfg w eng my_ms inc_ms base_minutes_override).1.1 = false →
   pushes (safe_make_move cfg w eng my_ms inc_ms base_minutes_override).2 = []) ∧
  (safe_make_move cfg w eng my_ms inc_ms base_minutes_override).1.2 = eng.
Proof.
  assert (H : ∀ (r : option bool * list action),
    settled w r.1 r.2 →
    ((let '(outcome, trace) := r in ((default false outcome, eng), trace)).1.1 = true ↔
     accepted w (let '(outcome, trace) := r in ((default false outcome, eng), trace)).2 ∧
     ¬ unreported w
         (let '(outcome, trace) := r in ((default false outcome, eng), trace)).2) ∧
    (pushes (let '(outcome, trace) := r in ((default false outcome, eng), trace)).2 = [] ∨
     accepted w (let '(outcome, trace) := r in ((default false outcome, eng), trace)).2) ∧
    ((let '(outcome, trace) := r in ((default false outcome, eng), trace)).1.1 = false →
     pushes (let '(outcome, trace) := r in ((default false outcome, eng), trace)).2 = [] ∨
     unreported w (let '(outcome, trace) := r in ((default false outcome, eng), trace)).2) ∧
    (report_move w = Some tt →
     (let '(outcome, trace) := r in ((default false outcome, eng), trace)).1.1 = false →
     pushes (let '(outcome, trace) := r in ((default false outcome, eng), trace)).2 = []) ∧
    (let '(outcome, trace) := r in ((default false outcome, eng), trace)).1.2 = eng).
  { intros [ok t] (H1 & H2 & H3). cbn [fst snd] in *.
    split; [| split; [done |]; split; [done |]; split; [| done]].
    - split; [exact H1 |]. intros [Ha Hn].
      destruct (default false ok) eqn:E; [done |].
      destruct (H3 eq_refl) as [Hp | Hu]; [| done].
      by apply accepted_pushes in Ha.
    - intros Hr Hko. destruct (H3 Hko) as [Hp | [Hn _]]; [done | congruence]. }
  unfold safe_make_move. cbv zeta. apply H.
  assert (Hhard : disciplined w
    (match engine_play w (Time 0.06) with
     | None =>
         let '(ok, t) := _micro_fallback_move w "panic" in
         (ok, EnginePlay (Time 0.06) :: t)
     | Some r =>
         match truthy r with
         | Some mv =>
             let '(ok, t) := submit w "panic" mv in
             (ok, EnginePlay (Time 0.06) :: t)
         | None =>
             let '(ok, t) := _micro_fallback_move w "panic-empty" in
             (ok, EnginePlay (Time 0.06) :: t)
         end
     end).1
    (match engine_play w (Time 0.06) with
     | None =>
         let '(ok, t) := _micro_fallback_move w "panic" in
         (ok, EnginePlay (Time 0.06) :: t)
     | Some r =>
         match truthy r with
         | Some mv =>
             let '(ok, t) := submit w "panic" mv in
             (ok, EnginePlay (Time 0.06) :: t)
         | None =>
             let '(ok, t) := _micro_fallback_move w "panic-empty" in
             (ok, EnginePlay (Time 0.06) :: t)
         end
     end).2).
  { destruct (engine_play w (Time 0.06)) as [r |].
    - destruct (truthy r) as [mv |].
      + pose proof (submit_disciplined w "panic" mv ltac:(done)) as Hs.
        destruct (submit w "panic" mv) as [ok t]; cbn [fst snd] in *.
        by apply (disciplined_prefix w [EnginePlay (Time 0.06)]).
      + pose proof (micro_fallback_disciplined w "panic-empty" ltac:(done)) as Hs.
        destruct (_micro_fallback_move w "panic-empty") as [ok t]; cbn [fst snd] in *.
        by apply (disciplined_prefix w [EnginePlay (Time 0.06)]).
    - pose proof (micro_fallback_disciplined w "panic" ltac:(done)) as Hs.
      destruct (_micro_fallback_move w "panic") as [ok t]; cbn [fst snd] in *.
      by apply (disciplined_prefix w [EnginePlay (Time 0.06)]). }
  destruct my_ms as [ms |].
  - destruct (Qle_bool (fmax 0.0 (inject_Z ms / 1000.0)) 2.0);
      [by apply disciplined_settled, micro_fallback_disciplined |].
    destruct (Qle_bool (fmax 0.0 (inject_Z ms / 1000.0)) 12.0);
      [by apply disciplined_settled | apply after_panic_settled].
  - apply after_panic_settled.
Qed.

Lemma safe_make_move_push_discipline_witness :
  accepted PipelineScenario.engine_up
    (safe_make_move (Config.defaults "icbmbot") PipelineScenario.engine_up tt
       (Some 60000%Z) (Some 0%Z) None).2.
Proof.
  apply (proj1 (safe_make_move_push_discipline (Config.defaults "icbmbot")
                  PipelineScenario.engine_up tt (Some 60000%Z) (Some 0%Z) None)).
  vm_compute. reflexivity.
Defined.

(** The exception, run: the cached search finds a move, the platform
    accepts it, the move is pushed, the report raises, and the call
    answers [(False, engine)] with the move on the board. *)
Example push_then_failed_report :
  (safe_make_move (Config.defaults "icbmbot") PipelineScenario.report_fails tt
     (Some 60000%Z) (Some 0%Z) None).1 = (false, tt) ∧
  pushes (safe_make_move (Config.defaults "icbmbot") PipelineScenario.report_fails tt
            (Some 60000%Z) (Some 0%Z) None).2 = ["g1f3"].
Proof. split; vm_compute; reflexivity. Qed.

(** A book lookup that raises ends the call before any search. *)
Example book_lookup_raises :
  safe_make_move (Config.defaults "icbmbot") PipelineScenario.book_fails tt
    (Some 60000%Z) (Some 0%Z) None = ((false, tt), [BookLookup]).
Proof. vm_compute. reflexivity. Qed.

Lemma hard_panic_armed (ms : Z) :
  (2000 < ms ≤ 12000)%Z →
  Qle_bool (fmax 0.0 (inject_Z ms / 1000.0)) 2.0 = false ∧
  Qle_bool (fmax 0.0 (inject_Z ms / 1000.0)) 12.0 = true.
Proof.
  intros [Hlo Hhi]. split; [by apply PipelineFacts.ultra_panic_disarmed |].
  apply Qle_bool_iff.
  assert (Hq : inject_Z ms <= 12000) by (unfold Qle; cbn; lia).
  unfold fmax. destruct (Qle_bool _ _); [done |].
  unfold Qdiv. change (/ 1000.0) with (10 # 10000). lra.
Qed.

(** Between 2 and 12 seconds on the clock the hard-panic branch is taken:
    the first action is the 60 ms engine search and neither the book, nor
    the table probe, nor the time manager, nor the cached search is ever
    invoked; the move of that search, when there is one, is submitted under
    the tag "panic". *)
Theorem hard_panic_branch {engine : Type} (cfg : Config.t) (w : world)
    (eng : engine) (ms : Z) (inc_ms base_minutes_override : option Z) :
  (2000 < ms ≤ 12000)%Z →
  head (safe_make_move cfg w eng (Some ms) inc_ms base_minutes_override).2
    = Some (EnginePlay (Time 0.06)) ∧
  Forall (λ a, search_step a = false)
    (safe_make_move cfg w eng (Some ms) inc_ms base_minutes_override).2 ∧
  (∀ mv, engine_play w (Time 0.06) = Some (Some mv) → is_null mv = false →
     (safe_make_move cfg w eng (Some ms) inc_ms base_minutes_override).2 =
       EnginePlay (Time 0.06) :: SubmitMove "panic" mv ::
       (if (safe_make_move cfg w eng (Some ms) inc_ms base_minutes_override).1.1
        then [BoardPush mv] else [])).
Proof.
  intros Hms. destruct (hard_panic_armed ms Hms) as [Hu Hh].
  unfold safe_make_move. cbv zeta. rewrite Hu, Hh.
  assert (Hmicro : ∀ tag,
    Forall (λ a, search_step a = false) (_micro_fallback_move w tag).2).
  { intros tag. unfold _micro_fallback_move.
    destruct (engine_play w (Nodes 2000)) as [r |];
      [destruct (truthy r) | destruct (truthy (head (legal_moves w)))];
      try destruct (make_move w tag _); cbn; repeat constructor. }
  destruct (engine_play w (Time 0.06)) as [r |] eqn:Er.
  - destruct (truthy r) as [mv |] eqn:Et.
    + unfold submit. split; [by destruct (make_move w "panic" mv) |].
      split; [destruct (make_move w "panic" mv); cbn; repeat constructor |].
      intros mv' [= ->] Hnn. cbn in Et. rewrite Hnn in Et. simplify_eq.
      by destruct (make_move w "panic" mv).
    + specialize (Hmicro "panic-empty").
      destruct (_micro_fallback_move w "panic-empty") as [ok t]. cbn [fst snd] in *.
      split; [done |]. split; [by constructor |].
      intros mv' [= ->] Hnn. cbn in Et. by rewrite Hnn in Et.
  - specialize (Hmicro "panic").
    destruct (_micro_fallback_move w "panic") as [ok t]. cbn [fst snd] in *.
    split; [done |]. split; [by constructor |]. done.
Qed.

Lemma hard_panic_branch_witness :
  head (safe_make_move (Config.defaults "icbmbot") PipelineScenario.engine_down tt
          (Some 9000%Z) None None).2
  = Some (EnginePlay (Time 0.06)).
Proof.
  apply (proj1 (hard_panic_branch (Config.defaults "icbmbot")
                  PipelineScenario.engine_down tt 9000 None None ltac:(lia))).
Defined.

(** The limit of the normal search is a time limit of at least 20 ms.
    With a clock it is at most the phase cap and, when some time is left,
    at most the remaining time minus the guard of 2.5 move overheads (the
    20 ms floor apart), whatever the time manager answers; without a clock
    it is [max(0.4, MIN_MOVE_TIME)].  The cached search, and the engine
    search that replaces it when it fails, are given this limit and no
    other. *)
Theorem normal_search_think_time cfg w sec_left inc_s ply bm ov :
  ∃ t, (search_limit cfg w sec_left inc_s ply bm ov).1 = Time t ∧ 0.02 <= t ∧
       (∀ s, sec_left = Some s →
             t <= fmax 0.02 (_phase_cap_seconds_local cfg ply) ∧
             (¬ s == 0 → t <= fmax 0.02 (s - 2.5 * ov))) ∧
       (sec_left = None → t = fmax 0.4 (MIN_MOVE_TIME cfg) ∧ 0.4 <= t) ∧
       (∀ l, CacheProbe l ∈ (normal_search cfg w sec_left inc_s ply bm ov).2 ∨
             EnginePlay l ∈ (normal_search cfg w sec_left inc_s ply bm ov).2 →
             l = Time t).
Proof.
  assert (Hlim : ∃ t, (search_limit cfg w sec_left inc_s ply bm ov).1 = Time t ∧
       0.02 <= t ∧
       (∀ s, sec_left = Some s →
             t <= fmax 0.02 (_phase_cap_seconds_local cfg ply) ∧
             (¬ s == 0 → t <= fmax 0.02 (s - 2.5 * ov))) ∧
       (sec_left = None → t = fmax 0.4 (MIN_MOVE_TIME cfg) ∧ 0.4 <= t) ∧
       ((search_limit cfg w sec_left inc_s ply bm ov).2 = [ComputeMovetime] ∨
        (search_limit cfg w sec_left inc_s ply bm ov).2 = [])).
  { unfold search_limit. destruct sec_left as [s |]; cbn [fst snd].
    - eexists. split; [reflexivity |].
      generalize (compute_movetime_at (stored_bank w (fmax 0.0 inc_s)) s inc_s ply
                    (is_check w) (length (legal_moves w) <=? 2)%nat bm (jitter w)).
      intros m. split; [| split; [| split; [done | by left]]].
      + match goal with |- _ <= fmax ?a ?b =>
          pose proof (TimeManagementFacts.fmax_lower_l a b) end. done.
      + intros s' [= <-]. split.
        * destruct (Qeq_bool s 0); TimeBudgetFacts.clamp_cases; lra.
        * intros Hs. destruct (Qeq_bool s 0) eqn:E;
            [apply Qeq_bool_iff in E; contradiction |].
          TimeBudgetFacts.clamp_cases; lra.
    - eexists. split; [reflexivity |]. split; [| split; [done | split; [| by right]]].
      + pose proof (TimeManagementFacts.fmax_lower_l 0.4 (MIN_MOVE_TIME cfg)). lra.
      + intros _. split; [reflexivity |]. apply TimeManagementFacts.fmax_lower_l. }
  destruct Hlim as (t & Et & H1 & H2 & H3 & Ht).
  exists t. split; [exact Et |]. split; [exact H1 |]. split; [exact H2 |].
  split; [exact H3 |].
  unfold normal_search.
  destruct (search_limit cfg w sec_left inc_s ply bm ov) as [lm timed].
  cbn [fst snd] in Et, Ht. subst lm.
  assert (Hsub : ∀ l c mv, (CacheProbe l ∉ (submit_and_report w c mv).2) ∧
                           (EnginePlay l ∉ (submit_and_report w c mv).2)).
  { intros l c mv. unfold submit_and_report.
    destruct (make_move w "normal" mv); cbn; set_solver. }
  intros l.
  destruct (probe_engine_with_cache w (Time t)) as [r |];
    [| destruct (engine_play w (Time t)) as [r |]];
    cbv beta iota zeta;
    try (destruct (truthy r) as [mv |];
         [match goal with |- context [submit_and_report w ?c mv] =>
            destruct (Hsub l c mv) as [Hs1 Hs2];
            destruct (submit_and_report w c mv) end |]);
    cbn [fst snd] in *; destruct Ht as [-> | ->];
    rewrite ?elem_of_app, ?elem_of_cons, ?elem_of_nil; naive_solver.
Qed.

(** One minute on the clock, no increment, ply 59, a 10-minute game:
    the limit is within the mid-game cap and the guarded clock. *)
Lemma normal_search_think_time_witness :
  ∃ t, (search_limit (Config.defaults "icbmbot") PipelineScenario.engine_up
          (Some 60) 0 59 10 0.06).1 = Time t ∧
       0.02 <= t ∧ t <= 45 ∧ t <= 60 - 2.5 * 0.06.
Proof.
  destruct (normal_search_think_time (Config.defaults "icbmbot")
              PipelineScenario.engine_up (Some 60) 0 59 10 0.06)
    as (t & Et & Hlo & Hclock & _).
  destruct (Hclock 60 eq_refl) as [Hcap Hguard].
  assert (Hnz : ¬ 60 == 0) by (vm_compute; congruence).
  specialize (Hguard Hnz).
  exists t. split; [exact Et |]. split; [exact Hlo |].
  assert (E1 : fmax 0.02 (_phase_cap_seconds_local (Config.defaults "icbmbot") 59)
               = 45) by reflexivity.
  assert (E2 : fmax 0.02 (60 - 2.5 * 0.06) = 60 - 2.5 * 0.06) by reflexivity.
  rewrite E1 in Hcap. rewrite E2 in Hguard. split; assumption.
Defined.

(** The same call, run: the time manager answers 2.736 s, below both
    bounds. *)
Example search_limit_at_one_minute :
  ∃ t, (search_limit (Config.defaults "icbmbot") PipelineScenario.engine_up
          (Some 60) 0 59 10 0.06).1 = Time t ∧ t == 2.736.
Proof. eexists. split; [reflexivity |]. vm_compute. reflexivity. Qed.

End PipelineMoreFacts.

Module ChatFacts.
Import Chat.
Local Open Scope Z_scope.

Lemma lstrip_head (s : text) :
  match lstrip s with [] => True | c :: _ => is_space c = false end.
Proof.
  induction s as [| c s IH]; [done |]. cbn [lstrip].
  destruct (is_space c) eqn:E; [exact IH | exact E].
Qed.

Lemma lstrip_suffix (s : text) : ∃ pre, s = pre ++ lstrip s ∧ Forall (λ c, is_space c = true) pre.
Proof.
  induction s as [| c s (pre & IH & Hpre)]; [by exists [] |]. cbn [lstrip].
  destruct (is_space c) eqn:E.
  - exists (c :: pre). split; [cbn; by f_equal | by constructor].
  - by exists [].
Qed.

Lemma lstrip_last (s : text) (c : N) :
  last (lstrip s) = Some c → last s = Some c.
Proof.
  destruct (lstrip_suffix s) as (pre & Hs & _). intros H.
  rewrite Hs, last_app, H. done.
Qed.

(** A stripped text neither starts nor ends with white space. *)
Lemma strip_ends (s : text) :
  match strip s with
  | [] => True
  | c :: _ => is_space c = false
  end ∧
  match last (strip s) with
  | None => True
  | Some c => is_space c = false
  end.
Proof.
  unfold strip. set (a := lstrip s). set (b := lstrip (reverse a)).
  pose proof (lstrip_head (reverse a)) as Hb. fold b in Hb.
  pose proof (lstrip_head s) as Ha. fold a in Ha.
  split.
  - destruct (reverse b) as [| c r] eqn:E; [done |].
    assert (Hl : last b = Some c).
    { rewrite <- (reverse_involutive b), E, last_reverse. done. }
    apply lstrip_last in Hl. rewrite last_reverse in Hl.
    destruct a as [| x a']; [done |]. cbn in Hl. by simplify_eq.
  - rewrite last_reverse. by destruct b.
Qed.

(** With a limit of at least one character, [_post] posts nothing for a
    blank text and otherwise a non-empty line of at most [max_len]
    characters: the stripped text itself (which neither starts nor ends
    with white space) when it fits, else its first [max_len - 1] characters
    followed by an ellipsis. *)
Theorem posted_text_bounded (max_len : Z) (t : text) :
  1 ≤ max_len →
  (match strip t with [] => True | c :: _ => is_space c = false end ∧
   match last (strip t) with None => True | Some c => is_space c = false end) ∧
  (posted_text max_len t = None ↔ strip t = []) ∧
  (∀ p, posted_text max_len t = Some p →
     p ≠ [] ∧ Z.of_nat (length p) ≤ max_len ∧
     (Z.of_nat (length (strip t)) ≤ max_len → p = strip t) ∧
     (max_len < Z.of_nat (length (strip t)) →
      p = take (Z.to_nat (max_len - 1)) (strip t) ++ [ellipsis] ∧
      Z.of_nat (length p) = max_len)).
Proof.
  intros Hmax. split; [apply strip_ends |]. unfold posted_text.
  destruct (strip t) as [| c s] eqn:E.
  - split; [done |]. intros p [=].
  - split; [split; [| done]; by destruct (_ <? _) |].
    intros p. destruct (Z.ltb_spec max_len (Z.of_nat (length (c :: s)))) as [Hlt | Hge].
    + intros [= <-]. unfold slice_to.
      replace (0 <=? max_len - 1) with true by (symmetry; apply Z.leb_le; lia).
      rewrite length_app, length_take. cbn [length] in *.
      split; [by destruct (take _ _) |]. split; [lia |]. split; [lia |].
      intros _. split; [done | lia].
    + intros [= <-]. split; [done |]. split; [lia |]. split; [done | lia].
Qed.

Lemma posted_text_bounded_witness :
  posted_text 5 [32; 104; 101; 108; 108; 111; 33; 32]%N
  = Some [104; 101; 108; 108; 8230]%N.
Proof.
  destruct (posted_text 5 [32; 104; 101; 108; 108; 111; 33; 32]%N) as [p |] eqn:E.
  - destruct (proj2 (proj2 (posted_text_bounded 5
                       [32; 104; 101; 108; 108; 111; 33; 32]%N
                       ltac:(lia))) p E) as (_ & _ & _ & H).
    destruct H as [-> _]; [vm_compute; reflexivity |]. reflexivity.
  - vm_compute in E. discriminate.
Defined.

End ChatFacts.

Module ThreadsFacts.
Import Threads.
Local Open Scope Z_scope.

(** [auto_threads] always asks for at least one thread; in automatic mode
    the threads of [MAX_ACTIVE_GAMES] concurrent engines never exceed the
    cores, and one thread more per engine would. *)
Theorem auto_threads_fits (engine_threads cpu_count : option Z) (max_active_games : Z) :
  1 ≤ auto_threads engine_threads cpu_count max_active_games ∧
  (∀ cores, engine_threads = None → cpu_count = Some cores →
     1 ≤ max_active_games ≤ cores →
     auto_threads engine_threads cpu_count max_active_games * max_active_games ≤ cores ∧
     cores < (auto_threads engine_threads cpu_count max_active_games + 1) * max_active_games).
Proof.
  split; [unfold auto_threads; destruct engine_threads; lia |].
  intros cores -> -> [H1 H2]. unfold auto_threads.
  replace (cores =? 0) with false by (symmetry; apply Z.eqb_neq; lia).
  rewrite (Z.max_r 1 max_active_games) by lia.
  assert (Hq : 1 ≤ cores / max_active_games)
    by (apply Z.div_le_lower_bound; lia).
  rewrite Z.max_r by lia.
  pose proof (Z.mul_div_le cores max_active_games ltac:(lia)).
  pose proof (Z.mul_succ_div_gt cores max_active_games ltac:(lia)).
  lia.
Qed.

Lemma auto_threads_fits_witness :
  auto_threads None (Some 16) 3 * 3 ≤ 16.
Proof.
  refine (proj1 (proj2 (auto_threads_fits None (Some 16) 3) 16 eq_refl eq_refl _)).
  lia.
Defined.

End ThreadsFacts.
